(** * directus-auth-manager: the credential store and the validator

    A shallow embedding of [config.ts] (the credential store) and
    [validator.ts] (the validator), together with the fragment of the
    JavaScript object model those two files rely on: own properties in
    [Object.keys] order, property reads through [Object.prototype],
    assignment, [delete], truthiness, [String.prototype.includes].
    The library interface ([lib.ts]) and the command-line entry point
    are embedded on top of the store, the answers of their prompts
    being inputs. *)

From Stdlib Require Import ZArith NArith String Ascii List Bool Lia Sorted.
From stdpp Require Import base option list strings pretty.

Local Open Scope string_scope.
Local Open Scope list_scope.

(* ===================================================================== *)
(** * The JavaScript object model used by the store                       *)
(* ===================================================================== *)

Module Js.

(** ** Property keys *)

Definition digit_of (c : ascii) : option N :=
  let n := N_of_ascii c in
  if ((48 <=? n) && (n <=? 57))%N then Some (n - 48)%N else None.

Fixpoint digits_value (acc : N) (s : string) : option N :=
  match s with
  | EmptyString => Some acc
  | String c t =>
      match digit_of c with
      | Some d => digits_value (10 * acc + d)%N t
      | None => None
      end
  end.

(** An array index is a canonical numeric string whose value is below
    [2^32 - 1]: no sign, no leading zero, digits only. *)
Definition array_index (s : string) : option N :=
  match s with
  | EmptyString => None
  | String "0"%char EmptyString => Some 0%N
  | String "0"%char _ => None
  | _ =>
      match digits_value 0 s with
      | Some n => if (n <? 4294967295)%N then Some n else None
      | None => None
      end
  end.

(** [key_before k k'] : a property [k] that is being created is listed
    before the existing property [k'].  Array indices come first, in
    ascending numeric order; every other string key follows in creation
    order, so a new one goes last. *)
Definition key_before (k k' : string) : bool :=
  match array_index k, array_index k' with
  | Some n, Some n' => (n <? n')%N
  | Some _, None => true
  | None, _ => false
  end.

(** ** Own properties, kept in [Object.keys] order *)

Section OwnProperties.
Context {V : Type}.

Fixpoint get_own (k : string) (o : list (string * V)) : option V :=
  match o with
  | [] => None
  | (k', v) :: t => if String.eqb k k' then Some v else get_own k t
  end.

Definition has_own (k : string) (o : list (string * V)) : bool :=
  match get_own k o with Some _ => true | None => false end.

(** Writing an existing own property keeps its position. *)
Fixpoint replace_own (k : string) (v : V) (o : list (string * V))
  : list (string * V) :=
  match o with
  | [] => []
  | (k', v') :: t =>
      if String.eqb k k' then (k', v) :: t else (k', v') :: replace_own k v t
  end.

(** Creating a property places it according to [key_before]. *)
Fixpoint add_own (k : string) (v : V) (o : list (string * V))
  : list (string * V) :=
  match o with
  | [] => [(k, v)]
  | (k', v') :: t =>
      if key_before k k' then (k, v) :: (k', v') :: t
      else (k', v') :: add_own k v t
  end.

Definition define_own (k : string) (v : V) (o : list (string * V))
  : list (string * V) :=
  if has_own k o then replace_own k v o else add_own k v o.

(** [delete o[k]] removes the own property [k] and nothing else. *)
Definition delete_own (k : string) (o : list (string * V))
  : list (string * V) :=
  List.filter (fun p => negb (String.eqb k (fst p))) o.

(** [Object.keys(o)] and [Object.entries(o)]: own properties only. *)
Definition keys (o : list (string * V)) : list string := List.map fst o.

Definition entries (o : list (string * V)) : list (string * V) := o.

End OwnProperties.

(** [key_order k k'] : [k] may be listed before [k']. *)
Definition key_order (k k' : string) : Prop :=
  match array_index k, array_index k' with
  | Some n, Some n' => (n <= n')%N
  | Some _, None => True
  | None, Some _ => False
  | None, None => True
  end.

(** The key list of an object: no key twice, array indices first and
    in ascending order. *)
Definition well_formed {V : Type} (o : list (string * V)) : Prop :=
  List.NoDup (keys o) /\ StronglySorted key_order (keys o).

(** ** The prototype chain

    The objects the store handles are created by an object literal or
    by [JSON.parse]; their prototype is [Object.prototype].  A read
    [o[k]] that finds no own property [k] continues there. *)
Definition object_prototype_keys : list string :=
  [ "constructor"; "__defineGetter__"; "__defineSetter__";
    "hasOwnProperty"; "__lookupGetter__"; "__lookupSetter__";
    "isPrototypeOf"; "propertyIsEnumerable"; "toString"; "valueOf";
    "__proto__"; "toLocaleString" ].

Definition inherited (k : string) : bool :=
  List.existsb (String.eqb k) object_prototype_keys.

(** The outcome of a read [o[k]]. *)
Inductive Lookup (V : Type) : Type :=
| Own (v : V)               (* an own property holding [v] *)
| Inherited (k : string)    (* the member [k] of [Object.prototype] *)
| Undefined.

Arguments Own {V} v.
Arguments Inherited {V} k.
Arguments Undefined {V}.

Definition get {V : Type} (k : string) (o : list (string * V)) : Lookup V :=
  match get_own k o with
  | Some v => Own v
  | None => if inherited k then Inherited k else Undefined
  end.

(** Truthiness of a read whose own values are objects: an object is
    truthy, every member of [Object.prototype] is a function (or, for
    [__proto__], the prototype object itself) and so truthy, and
    [undefined] is falsy. *)
Definition truthy {V : Type} (r : Lookup V) : bool :=
  match r with
  | Own _ => true
  | Inherited _ => true
  | Undefined => false
  end.

(** [o[k] = v] for an object value [v].  [__proto__] is an accessor of
    [Object.prototype]: unless [o] has an own property of that name, the
    assignment runs the setter, which replaces the prototype of [o] and
    creates no property.  Every other member of [Object.prototype] is a
    writable data property, which an assignment shadows by an own one. *)
Definition set {V : Type} (k : string) (v : V) (o : list (string * V))
  : list (string * V) :=
  if String.eqb k "__proto__" && negb (has_own k o) then o
  else define_own k v o.

(** [k in o]. *)
Definition has_property {V : Type} (k : string) (o : list (string * V))
  : bool :=
  has_own k o || inherited k.

(** Truthiness of a string or null ([!config.active]). *)
Definition truthy_name (a : option string) : bool :=
  match a with
  | None => false
  | Some "" => false
  | Some _ => true
  end.

(** ** JSON values *)

#[local] Set Warnings "-register-all".

(** [JNum m e] stands for the number [m * 2^e]. *)
Inductive JsValue : Type :=
| JNull
| JBool (b : bool)
| JNum (m e : Z)
| JStr (s : string)
| JArr (items : list JsValue)
| JObj (props : list (string * JsValue)).

(** ** Thrown values and settled promises *)

Inductive Thrown : Type :=
| ErrorObj (message : string)   (* an instance of [Error] *)
| NotAnError.                   (* any other thrown value *)

(** How a block of statements completes.  The promise of an [async]
    function is fulfilled with its normal completion and rejected with
    its abrupt one; [await] turns a settled promise back into one. *)
Inductive Completion (A : Type) : Type :=
| Normal (a : A)
| Abrupt (e : Thrown).

Arguments Normal {A} a.
Arguments Abrupt {A} e.

Definition bind {A B : Type} (c : Completion A) (k : A -> Completion B)
  : Completion B :=
  match c with
  | Normal a => k a
  | Abrupt e => Abrupt e
  end.

Definition try_catch {A : Type} (block : Completion A)
  (handler : Thrown -> Completion A) : Completion A :=
  match block with
  | Normal a => Normal a
  | Abrupt e => handler e
  end.

(** [Promise.all(promises)]: a slot per promise, filled when that
    promise is fulfilled; the first rejection rejects the aggregate; the
    aggregate is fulfilled with the slots once none remains to be
    filled.  [schedule] lists the promises' indices in the order in
    which they settle; the aggregate stays pending ([None]) while
    promises remain unsettled. *)
Fixpoint promise_all_settle {A : Type} (promises : list (Completion A))
  (schedule : list nat) (values : list (option A)) (remaining : nat)
  : option (Completion (list A)) :=
  match schedule with
  | [] => None
  | i :: rest =>
      match promises !! i with
      | None => promise_all_settle promises rest values remaining
      | Some (Abrupt e) => Some (Abrupt e)
      | Some (Normal v) =>
          let values' := <[i := Some v]> values in
          match remaining with
          | 1 => Some (Normal (omap id values'))
          | _ => promise_all_settle promises rest values' (Nat.pred remaining)
          end
      end
  end.

Definition promise_all {A : Type} (promises : list (Completion A))
  (schedule : list nat) : option (Completion (list A)) :=
  match promises with
  | [] => Some (Normal [])
  | _ =>
      promise_all_settle promises schedule
        (replicate (length promises) None) (length promises)
  end.

(** ** [String.prototype.includes] *)

Fixpoint starts_with (p s : string) : bool :=
  match p, s with
  | EmptyString, _ => true
  | String a p', String b s' => Ascii.eqb a b && starts_with p' s'
  | String _ _, EmptyString => false
  end.

Fixpoint includes (s needle : string) : bool :=
  starts_with needle s
  || match s with
     | EmptyString => false
     | String _ s' => includes s' needle
     end.

(** The substring relation that [includes] decides. *)
Definition contains (needle s : string) : Prop :=
  exists pre post, s = (pre ++ needle ++ post)%string.

(** ** Strings as sequences of code units

    A character of the model stands for one code unit of the string;
    the model's alphabet is the code units below 256. *)

Fixpoint string_take (n : nat) (s : string) : string :=
  match n, s with
  | O, _ => EmptyString
  | S _, EmptyString => EmptyString
  | S n', String c t => String c (string_take n' t)
  end.

Fixpoint string_drop (n : nat) (s : string) : string :=
  match n, s with
  | O, _ => s
  | S _, EmptyString => EmptyString
  | S n', String _ t => string_drop n' t
  end.

(** [s.slice(0, n)] and [s.slice(-n)]. *)
Definition slice_head (n : nat) (s : string) : string := string_take n s.

Definition slice_tail (n : nat) (s : string) : string :=
  string_drop (String.length s - n) s.

Fixpoint all_chars (p : ascii -> bool) (s : string) : bool :=
  match s with
  | EmptyString => true
  | String c t => p c && all_chars p t
  end.

(** White space and line terminators among the code units below 256:
    tab, line feed, vertical tab, form feed, carriage return, space and
    no-break space. *)
Definition is_white_space (c : ascii) : bool :=
  let n := nat_of_ascii c in
  (Nat.leb 9 n && Nat.leb n 13) || Nat.eqb n 32 || Nat.eqb n 160.

(** [!s.trim()]: the trimmed string is empty. *)
Definition trims_to_empty (s : string) : bool := all_chars is_white_space s.

(** [Array.prototype.includes] on an array of strings. *)
Definition array_includes (flag : string) (args : list string) : bool :=
  List.existsb (String.eqb flag) args.

(** The double quote, as a one-character string. *)
Definition dquote : string := String (ascii_of_nat 34) EmptyString.

End Js.

(* ===================================================================== *)
(** * The credential store ([config.ts])                                  *)
(* ===================================================================== *)

Module Config.

Import Js.

(** ** Data model ([types.ts]) *)

Record Credentials : Type := { url : string; token : string }.

Record Config : Type := {
  active : option string;                       (* [string | null] *)
  credentials : list (string * Credentials)     (* own properties, in key order *)
}.

(** The JSON value of a document, as [JSON.stringify] lays it out and
    [JSON.parse] reads it back. *)
Definition json_of_credentials (c : Credentials) : JsValue :=
  JObj [("url", JStr (url c)); ("token", JStr (token c))].

Definition json_of_active (a : option string) : JsValue :=
  match a with
  | None => JNull
  | Some s => JStr s
  end.

Definition json_of_config (c : Config) : JsValue :=
  JObj [ ("active", json_of_active (active c));
         ("credentials",
          JObj (List.map (fun p => (fst p, json_of_credentials (snd p)))
                         (credentials c))) ].

(** The expected structure: which JSON values are a [Config]. *)
Definition credentials_of_json (v : JsValue) : option Credentials :=
  match v with
  | JObj props =>
      match get_own "url" props, get_own "token" props with
      | Some (JStr u), Some (JStr t) => Some {| url := u; token := t |}
      | _, _ => None
      end
  | _ => None
  end.

Fixpoint credentials_map_of_json (props : list (string * JsValue))
  : option (list (string * Credentials)) :=
  match props with
  | [] => Some []
  | (k, v) :: t =>
      match credentials_of_json v, credentials_map_of_json t with
      | Some c, Some r => Some ((k, c) :: r)
      | _, _ => None
      end
  end.

Definition active_of_json (v : JsValue) : option (option string) :=
  match v with
  | JNull => Some None
  | JStr s => Some (Some s)
  | _ => None
  end.

Definition config_of_json (v : JsValue) : option Config :=
  match v with
  | JObj props =>
      match get_own "active" props, get_own "credentials" props with
      | Some a, Some (JObj cs) =>
          match active_of_json a, credentials_map_of_json cs with
          | Some a', Some cs' => Some {| active := a'; credentials := cs' |}
          | _, _ => None
          end
      | _, _ => None
      end
  | _ => None
  end.

(** ** The file system seen by the store *)

Inductive DirState : Type :=
| DirPresent      (* [existsSync(CONFIG_DIR)] *)
| DirMissing      (* absent; [mkdirSync] creates it *)
| DirBlocked.     (* absent; [mkdirSync] throws *)

(** The config file, its text abstracted by what [JSON.parse] makes of
    it: [FileText None] is a text on which [JSON.parse] throws. *)
Inductive FileState : Type :=
| FileAbsent
| FileUnreadable                       (* [readFileSync] throws *)
| FileText (parsed : option JsValue).

Record Disk : Type := {
  dir : DirState;
  file : FileState;
  writable : bool       (* [false]: [writeFileSync] throws *)
}.

Inductive Outcome (A : Type) : Type :=
| Returns (a : A) (d : Disk)
| Throws.

Arguments Returns {A} a d.
Arguments Throws {A}.

Definition ensureConfigDir (d : Disk) : Outcome unit :=
  match dir d with
  | DirPresent => Returns tt d
  | DirMissing =>
      Returns tt {| dir := DirPresent; file := FileAbsent;
                    writable := writable d |}
  | DirBlocked => Throws
  end.

Definition getDefaultConfig : Config :=
  {| active := None; credentials := [] |}.

(** [readConfig] returns whatever [JSON.parse] produced; [as Config] is a
    type assertion and checks nothing. *)
Definition readConfig (d : Disk) : Outcome JsValue :=
  match ensureConfigDir d with
  | Throws => Throws
  | Returns _ d1 =>
      match file d1 with
      | FileAbsent => Returns (json_of_config getDefaultConfig) d1
      | FileUnreadable => Returns (json_of_config getDefaultConfig) d1
      | FileText None => Returns (json_of_config getDefaultConfig) d1
      | FileText (Some v) => Returns v d1
      end
  end.


(** ** Operations

    Each operation starts with [readConfig()] and may end with
    [writeConfig(config)].  An operation is modelled from the document
    [config] that [readConfig] returned to its return value and the
    document it hands to [writeConfig], if any. *)

Record Call (R : Type) : Type := {
  result : R;
  written : option Config     (* [Some c]: [writeConfig(c)] was called *)
}.

Arguments result {R} c.
Arguments written {R} c.

(** The document on disk after a call. *)
Definition after {R : Type} (c : Call R) (config : Config) : Config :=
  match written c with
  | Some config' => config'
  | None => config
  end.

Definition getAllCredentials (config : Config) : list (string * Credentials) :=
  credentials config.

(** [config.credentials[name] || null]. *)
Definition getCredentials (name : string) (config : Config)
  : option (Lookup Credentials) :=
  if truthy (get name (credentials config))
  then Some (get name (credentials config))
  else None.

Definition addCredentials (name : string) (creds : Credentials)
  (config : Config) : Call unit :=
  let cs := set name creds (credentials config) in
  let a := if Nat.eqb (List.length (keys cs)) 1 then Some name
           else active config in
  {| result := tt;
     written := Some {| active := a; credentials := cs |} |}.

Definition first_key (remaining : list string) : option string :=
  match remaining with
  | [] => None
  | k :: _ => Some k
  end.

Definition is_active (config : Config) (name : string) : bool :=
  match active config with
  | Some a => String.eqb a name
  | None => false
  end.

Definition removeCredentials (name : string) (config : Config) : Call bool :=
  if negb (truthy (get name (credentials config))) then
    {| result := false; written := None |}
  else
    let cs := delete_own name (credentials config) in
    let a := if is_active config name then first_key (keys cs)
             else active config in
    {| result := true;
       written := Some {| active := a; credentials := cs |} |}.

Definition setActive (name : string) (config : Config) : Call bool :=
  if negb (truthy (get name (credentials config))) then
    {| result := false; written := None |}
  else
    {| result := true;
       written := Some {| active := Some name;
                          credentials := credentials config |} |}.

Definition getActiveName (config : Config) : option string := active config.

Definition getActiveCredentials (config : Config)
  : option (string * Lookup Credentials) :=
  match active config with
  | None => None
  | Some a =>
      if negb (truthy_name (Some a))
         || negb (truthy (get a (credentials config)))
      then None
      else Some (a, get a (credentials config))
  end.

Definition hasCredentials (name : string) (config : Config) : bool :=
  has_property name (credentials config).

(** ** Sequences of mutating calls *)

Inductive Op : Type :=
| Add (name : string) (creds : Credentials)
| Remove (name : string)
| SetActive (name : string).

Definition step (config : Config) (op : Op) : Config :=
  match op with
  | Add name creds => after (addCredentials name creds config) config
  | Remove name => after (removeCredentials name config) config
  | SetActive name => after (setActive name config) config
  end.

(** The documents observable after each call of a sequence, in order. *)
Fixpoint trace (config : Config) (ops : list Op) : list Config :=
  match ops with
  | [] => []
  | op :: rest => step config op :: trace (step config op) rest
  end.

(** Calls whose name argument does not meet [Object.prototype]: no
    [addCredentials("__proto__", _)], and no [setActive] with the name
    of a member of [Object.prototype]. *)
Definition plain_op (op : Op) : Prop :=
  match op with
  | Add name _ => name <> "__proto__"
  | Remove _ => True
  | SetActive name => inherited name = false
  end.

(** The invariant of the data model: [active] is null or an own key. *)
Definition active_ok (config : Config) : Prop :=
  match active config with
  | None => True
  | Some a => In a (keys (credentials config))
  end.

Definition active_okb (config : Config) : bool :=
  match active config with
  | None => true
  | Some a => List.existsb (String.eqb a) (keys (credentials config))
  end.

End Config.

(* ===================================================================== *)
(** * The validator ([validator.ts])                                      *)
(* ===================================================================== *)

Module Validator.

Import Js.
Import Config.

(** ** Data model ([types.ts]) *)

(** A field that is [undefined] is [None]. *)
Record User : Type := {
  id : option JsValue;
  email : option JsValue;
  first_name : option JsValue;
  last_name : option JsValue
}.

Record ValidationResult : Type := {
  name : string;
  success : bool;
  message : string;
  user : option User
}.

(** ** The request *)

(** [url.replace(/\/+$/, '')]: the run of slashes that ends the string
    is removed. *)
Fixpoint strip_trailing_slashes (s : string) : string :=
  match s with
  | EmptyString => EmptyString
  | String c t =>
      match strip_trailing_slashes t with
      | EmptyString =>
          if Ascii.eqb c "/" then EmptyString else String c EmptyString
      | t' => String c t'
      end
  end.

Fixpoint only_slashes (s : string) : bool :=
  match s with
  | EmptyString => true
  | String c t => Ascii.eqb c "/" && only_slashes t
  end.

Fixpoint ends_with_slash (s : string) : bool :=
  match s with
  | EmptyString => false
  | String c EmptyString => Ascii.eqb c "/"
  | String _ t => ends_with_slash t
  end.

Record Request : Type := {
  endpoint : string;
  method : string;
  authorization : string;
  content_type : string
}.

Definition request_for (creds : Credentials) : Request :=
  {| endpoint := strip_trailing_slashes (url creds) ++ "/users/me";
     method := "GET";
     authorization := "Bearer " ++ token creds;
     content_type := "application/json" |}.

(** ** The response *)

(** What [response.json()] settles to. *)
Inductive Body : Type :=
| BodyJson (data : JsValue)
| BodyThrows (e : Thrown).

Record Response : Type := { status : N; body : Body }.

(** [response.ok]: the status is in the range 200-299. *)
Definition ok (r : Response) : bool :=
  ((200 <=? status r) && (status r <=? 299))%N.

(** What [fetch] settles to. *)
Inductive FetchOutcome : Type :=
| Responds (r : Response)
| Fails (e : Thrown).

Definition await_fetch (o : FetchOutcome) : Completion Response :=
  match o with
  | Responds r => Normal r
  | Fails e => Abrupt e
  end.

Definition await_json (b : Body) : Completion JsValue :=
  match b with
  | BodyJson data => Normal data
  | BodyThrows e => Abrupt e
  end.

(** ** Reading [data], [id], [email], [first_name], [last_name] *)

Inductive Field : Type := f_data | f_id | f_email | f_first_name | f_last_name.

Definition field_name (f : Field) : string :=
  match f with
  | f_data => "data"
  | f_id => "id"
  | f_email => "email"
  | f_first_name => "first_name"
  | f_last_name => "last_name"
  end.

Definition cannot_read (base : string) (f : Field) : Thrown :=
  ErrorObj ("Cannot read properties of " ++ base
            ++ " (reading '" ++ field_name f ++ "')").

(** The member [f] of a JSON value other than [null].  None of the
    five names is a member of a built-in prototype, an index or
    [length], so only an object can hold one, as an own property; on
    every other value the member is [undefined]. *)
Definition own_field (v : JsValue) (f : Field) : option JsValue :=
  match v with
  | JObj props => get_own (field_name f) props
  | _ => None
  end.

(** [base.f] where [base] is a parsed JSON value or [undefined]:
    reading from [null] or [undefined] throws a [TypeError]. *)
Definition read_field (base : option JsValue) (f : Field)
  : Completion (option JsValue) :=
  match base with
  | None => Abrupt (cannot_read "undefined" f)
  | Some JNull => Abrupt (cannot_read "null" f)
  | Some v => Normal (own_field v f)
  end.

(** The identity record read from the value of the [data] member. *)
Definition identity_of (u : JsValue) : User :=
  {| id := own_field u f_id;
     email := own_field u f_email;
     first_name := own_field u f_first_name;
     last_name := own_field u f_last_name |}.

Definition failure (name0 message0 : string) : ValidationResult :=
  {| name := name0; success := false; message := message0; user := None |}.

(** ** [validateCredentials] *)

Definition message_for_status (status : N) : string :=
  if (status =? 401)%N then "Unauthorized - Invalid or expired token"
  else if (status =? 403)%N then "Forbidden - Token lacks required permissions"
  else if (status =? 404)%N then "Not found - Check if the URL is correct"
  else "HTTP " ++ pretty status.

Definition try_block (name0 : string) (fetched : FetchOutcome)
  : Completion ValidationResult :=
  bind (await_fetch fetched) (fun response =>
  if negb (ok response) then
    Normal {| name := name0; success := false;
              message := message_for_status (status response);
              user := None |}
  else
    bind (await_json (body response)) (fun data =>
    bind (read_field (Some data) f_data) (fun user0 =>
    bind (read_field user0 f_id) (fun id0 =>
    bind (read_field user0 f_email) (fun email0 =>
    bind (read_field user0 f_first_name) (fun first_name0 =>
    bind (read_field user0 f_last_name) (fun last_name0 =>
    Normal {| name := name0; success := true; message := "Valid";
              user := Some {| id := id0; email := email0;
                              first_name := first_name0;
                              last_name := last_name0 |} |}))))))).

Definition catch_message (error : Thrown) : string :=
  match error with
  | NotAnError => "Unknown error"
  | ErrorObj m =>
      if includes m "ECONNREFUSED" then "Connection refused - Server may be down"
      else if includes m "ENOTFOUND" then "Host not found - Check the URL"
      else if includes m "ETIMEDOUT" then "Connection timed out"
      else if includes m "certificate" then "SSL certificate error"
      else m
  end.

Definition catch_block (name0 : string) (error : Thrown)
  : Completion ValidationResult :=
  Normal {| name := name0; success := false;
            message := catch_message error; user := None |}.

(** [fetch] is the network: it maps the request to what the call
    settles to. *)
Definition validateCredentials (fetch : Request -> FetchOutcome)
  (name0 : string) (creds : Credentials) : Completion ValidationResult :=
  try_catch (try_block name0 (fetch (request_for creds)))
            (catch_block name0).

(** ** [validateAllCredentials]

    [fetches i] is the network as the [i]-th call meets it, and
    [schedule] the order in which the calls' promises settle. *)
Definition validateAllCredentials (fetches : nat -> Request -> FetchOutcome)
  (schedule : list nat) (credentialsMap : list (string * Credentials))
  : option (Completion (list ValidationResult)) :=
  let results :=
    imap (fun i entry => validateCredentials (fetches i) (fst entry) (snd entry))
         (entries credentialsMap) in
  promise_all results schedule.

End Validator.

(* ===================================================================== *)
(** * The library interface ([lib.ts])                                    *)
(* ===================================================================== *)

Module Lib.

Import Js.
Import Config.

Inductive Source : Type := saved | manual.

(** A field that is [undefined] is [None]. *)
Record CredentialSelection : Type := {
  sel_name : string;
  sel_url : option string;
  sel_token : option string;
  source : Source
}.

(** [creds.url] and [creds.token] where [creds] is the outcome of a
    read that was found truthy: stored credentials have both; a member
    of [Object.prototype] has neither. *)
Definition read_url (creds : Lookup Credentials) : option string :=
  match creds with
  | Own c => Some (url c)
  | _ => None
  end.

Definition read_token (creds : Lookup Credentials) : option string :=
  match creds with
  | Own c => Some (token c)
  | _ => None
  end.

Definition saved_selection (name : string) (creds : Lookup Credentials)
  : CredentialSelection :=
  {| sel_name := name; sel_url := read_url creds;
     sel_token := read_token creds; source := saved |}.

(** The selection that holds a stored credential set. *)
Definition stored_selection (name : string) (c : Credentials)
  : CredentialSelection :=
  {| sel_name := name; sel_url := Some (url c); sel_token := Some (token c);
     source := saved |}.

(** The name a call of the store is about. *)
Definition name_of (op : Op) : string :=
  match op with
  | Add name _ => name
  | Remove name => name
  | SetActive name => name
  end.

Definition getActive (config : Config) : option CredentialSelection :=
  match getActiveCredentials config with
  | None => None
  | Some (name, creds) => Some (saved_selection name creds)
  end.

Definition getByName (name : string) (config : Config)
  : option CredentialSelection :=
  match getCredentials name config with
  | None => None
  | Some creds => Some (saved_selection name creds)
  end.

Definition listSaved (config : Config) : list string :=
  keys (getAllCredentials config).

(** ** Prompts

    The answers of the user are inputs.  A list prompt answers with the
    value of one of its choices; the input and confirm prompts answer
    with what was entered once the prompt's [validate] accepts it. *)

(** The options, each absent ([None]) or given. *)
Record PromptOptions : Type := {
  allowManual : option bool;
  saveManual : option bool;
  useActiveIfAvailable : option bool
}.

Record ManualAnswers : Type := {
  answer_url : string;
  answer_token : string;
  shouldSave : bool;
  credName : string;
  overwrite : bool
}.

Definition manual_selection (name : string) (answers : ManualAnswers)
  : CredentialSelection :=
  {| sel_name := name; sel_url := Some (answer_url answers);
     sel_token := Some (answer_token answers); source := manual |}.

Definition promptManualEntry (save : bool) (answers : ManualAnswers)
  (config : Config) : Call CredentialSelection :=
  if save && shouldSave answers then
    let name := credName answers in
    let creds := {| url := answer_url answers;
                    token := answer_token answers |} in
    if hasCredentials name config then
      if overwrite answers then
        {| result := manual_selection name answers;
           written := written (addCredentials name creds config) |}
      else
        {| result := manual_selection name answers; written := None |}
    else
      {| result := manual_selection name answers;
         written := written (addCredentials name creds config) |}
  else
    {| result := manual_selection "manual" answers; written := None |}.

Definition no_saved_credentials : Thrown :=
  ErrorObj ("No saved credentials available. Run " ++ dquote
            ++ "directus-auth" ++ dquote ++ " to add credentials.").


(** [selected] is the answer of the list prompt. *)
Definition promptForCredentials (options : PromptOptions)
  (selected : string) (answers : ManualAnswers) (config : Config)
  : Completion (Call CredentialSelection) :=
  let allow := default true (allowManual options) in
  let save := default true (saveManual options) in
  let use_active := default false (useActiveIfAvailable options) in
  let prompt :=
    let savedCreds := getAllCredentials config in
    let savedNames := keys savedCreds in
    if Nat.eqb (List.length savedNames) 0 && allow then
      Normal (promptManualEntry save answers config)
    else if Nat.eqb (List.length savedNames) 0 then
      Abrupt no_saved_credentials
    else if String.eqb selected "__manual__" then
      Normal (promptManualEntry save answers config)
    else
      match get selected savedCreds with
      | Undefined =>
          Abrupt (ErrorObj
                    "Cannot read properties of undefined (reading 'url')")
      | creds =>
          Normal {| result := saved_selection selected creds;
                    written := None |}
      end in
  if use_active then
    match getActiveCredentials config with
    | Some (name, creds) =>
        Normal {| result := saved_selection name creds; written := None |}
    | None => prompt
    end
  else prompt.

End Lib.

(* ===================================================================== *)
(** * The command line (the entry point of the [directus-auth] tool)      *)
(* ===================================================================== *)

Module Cli.

Import Js.
Import Config.
Import Lib.

(** ** [maskToken] *)

Definition maskToken (token : string) : string :=
  if Nat.leb (String.length token) 12 then "****"
  else slice_head 4 token ++ "..." ++ slice_tail 4 token.

(** ** Command-line arguments *)

(** What is printed; the help text itself is not modelled. *)
Inductive Output : Type :=
| ErrorLine (text : string)      (* [console.error] *)
| JsonLine (v : JsValue)         (* [console.log(JSON.stringify(...))] *)
| HelpText.

Inductive Run (R : Type) : Type :=
| Returned (r : R) (out : list Output)
| Exited (code : N) (out : list Output).    (* [process.exit(code)] *)

Arguments Returned {R} r out.
Arguments Exited {R} code out.

(** A member that is [undefined] is left out by [JSON.stringify]. *)
Definition json_member (k : string) (v : option string)
  : list (string * JsValue) :=
  match v with
  | Some s => [(k, JStr s)]
  | None => []
  end.

Definition outputJson (config : Config) : Run unit :=
  match getActiveCredentials config with
  | None => Exited 1 [ErrorLine "No active credentials set"]
  | Some (name, creds) =>
      Returned tt
        [JsonLine (JObj ([("name", JStr name)]
                         ++ json_member "url" (read_url creds)
                         ++ json_member "token" (read_token creds)))]
  end.

Definition handleCliArgs (args : list string) (config : Config) : Run bool :=
  if array_includes "--json" args || array_includes "-j" args then
    match outputJson config with
    | Returned _ out => Returned true out
    | Exited code out => Exited code out
    end
  else if array_includes "--help" args || array_includes "-h" args then
    Returned true [HelpText]
  else Returned false [].

(** ** Validation of a name entered at a prompt *)

(** The character class [[a-zA-Z0-9_-]]. *)
Definition name_char (c : ascii) : bool :=
  let n := nat_of_ascii c in
  (Nat.leb 97 n && Nat.leb n 122) || (Nat.leb 65 n && Nat.leb n 90)
  || (Nat.leb 48 n && Nat.leb n 57) || Nat.eqb n 95 || Nat.eqb n 45.

(** [/^[a-zA-Z0-9_-]+$/.test(input)]. *)
Definition name_pattern (input : string) : bool :=
  negb (String.eqb input "") && all_chars name_char input.

Inductive Validation : Type :=
| Accepted                     (* [true] *)
| Refused (message : string).

Definition validate_name (input : string) : Validation :=
  if trims_to_empty input then Refused "Name is required"
  else if negb (name_pattern input) then
    Refused "Name can only contain letters, numbers, underscores, and hyphens"
  else Accepted.

(** ** The menu actions *)

(** [selected] is the answer of the list prompt, asked only when a
    credential set is saved. *)
Definition selectCredentials (selected : string) (config : Config)
  : option string :=
  let names := keys (getAllCredentials config) in
  if Nat.eqb (List.length names) 0 then None
  else if String.eqb selected "__cancel__" then None
  else Some selected.

(** The values of the choices [selectCredentials] offers. *)
Definition select_choices (config : Config) : list string :=
  keys (getAllCredentials config) ++ ["__cancel__"].

Record AddAnswers : Type := {
  add_name : string;
  add_overwrite : bool;
  add_url : string;
  add_token : string
}.

Definition handleAdd (answers : AddAnswers) (config : Config) : Call unit :=
  if hasCredentials (add_name answers) config
     && negb (add_overwrite answers)
  then {| result := tt; written := None |}
  else
    addCredentials (add_name answers)
      {| url := add_url answers; token := add_token answers |} config.

Definition handleRemove (selected : string) (confirm : bool)
  (config : Config) : Call unit :=
  match selectCredentials selected config with
  | None => {| result := tt; written := None |}
  | Some name =>
      if negb (truthy_name (Some name)) then
        {| result := tt; written := None |}
      else if negb confirm then {| result := tt; written := None |}
      else {| result := tt;
              written := written (removeCredentials name config) |}
  end.

Definition handleUse (selected : string) (config : Config) : Call unit :=
  match selectCredentials selected config with
  | None => {| result := tt; written := None |}
  | Some name =>
      if negb (truthy_name (Some name)) then
        {| result := tt; written := None |}
      else {| result := tt; written := written (setActive name config) |}
  end.

(** ** Sessions of the interactive menu *)

Inductive Action : Type :=
| DoAdd (answers : AddAnswers)
| DoRemove (selected : string) (confirm : bool)
| DoUse (selected : string).

Definition handle (config : Config) (a : Action) : Config :=
  match a with
  | DoAdd answers => after (handleAdd answers config) config
  | DoRemove selected confirm =>
      after (handleRemove selected confirm config) config
  | DoUse selected => after (handleUse selected config) config
  end.

Fixpoint session (config : Config) (actions : list Action) : list Config :=
  match actions with
  | [] => []
  | a :: rest => handle config a :: session (handle config a) rest
  end.

(** The answers considered for a session: the name entered at the add
    prompt is not [__proto__]; an answer of a list prompt, which is
    shown only when a credential set is saved, is one of the choices
    offered on the document at that point. *)
Definition answer_ok (config : Config) (a : Action) : Prop :=
  match a with
  | DoAdd answers => add_name answers <> "__proto__"
  | DoRemove selected _ =>
      keys (credentials config) = [] \/ In selected (select_choices config)
  | DoUse selected =>
      keys (credentials config) = [] \/ In selected (select_choices config)
  end.

Fixpoint answers_ok (config : Config) (actions : list Action) : Prop :=
  match actions with
  | [] => True
  | a :: rest => answer_ok config a /\ answers_ok (handle config a) rest
  end.

End Cli.

(* ===================================================================== *)
(** * Facts about the object model                                        *)
(* ===================================================================== *)

Module JsFacts.

Import Js.

Section OwnPropertyFacts.
Context {V : Type}.
Implicit Types (k : string) (v : V) (o : list (string * V)).

Lemma has_own_true k o : has_own k o = true <-> exists v, get_own k o = Some v.
Proof.
  unfold has_own. destruct (get_own k o) as [v|]; split; eauto.
  - discriminate.
  - intros [v Hv]. discriminate.
Qed.

Lemma has_own_false k o : has_own k o = false <-> get_own k o = None.
Proof.
  unfold has_own. destruct (get_own k o); split; congruence.
Qed.

Lemma in_keys_has_own k o : In k (keys o) <-> has_own k o = true.
Proof.
  unfold has_own, keys. induction o as [|[k' v'] t IH]; simpl.
  - split; [tauto | discriminate].
  - destruct (String.eqb_spec k k') as [->|Hne].
    + split; auto.
    + rewrite <- IH. split; [intros [Heq|Hin]; congruence || assumption | auto].
Qed.

Lemma keys_replace_own k v o : keys (replace_own k v o) = keys o.
Proof.
  unfold keys. induction o as [|[k' v'] t IH]; simpl; [reflexivity|].
  destruct (String.eqb k k'); simpl; congruence.
Qed.

Lemma get_own_replace_own_eq k v o :
  has_own k o = true -> get_own k (replace_own k v o) = Some v.
Proof.
  unfold has_own. induction o as [|[k' v'] t IH]; simpl; [discriminate|].
  destruct (String.eqb k k') eqn:E; simpl; rewrite E; auto.
Qed.

Lemma get_own_replace_own_ne k k' v o :
  k <> k' -> get_own k' (replace_own k v o) = get_own k' o.
Proof.
  intros Hne. induction o as [|[k0 v0] t IH]; simpl; [reflexivity|].
  destruct (String.eqb_spec k k0) as [->|Hk]; simpl.
  - destruct (String.eqb_spec k' k0); congruence.
  - rewrite IH. reflexivity.
Qed.

Lemma get_own_add_own_eq k v o :
  get_own k o = None -> get_own k (add_own k v o) = Some v.
Proof.
  induction o as [|[k' v'] t IH]; simpl.
  - now rewrite String.eqb_refl.
  - destruct (String.eqb k k') eqn:E; [discriminate|]. intros Hnone.
    destruct (key_before k k'); simpl.
    + now rewrite String.eqb_refl.
    + rewrite E. auto.
Qed.

Lemma get_own_add_own_ne k k' v o :
  k <> k' -> get_own k' (add_own k v o) = get_own k' o.
Proof.
  intros Hne. apply not_eq_sym in Hne. apply String.eqb_neq in Hne.
  induction o as [|[k0 v0] t IH]; simpl.
  - now rewrite Hne.
  - destruct (key_before k k0); simpl.
    + now rewrite Hne.
    + now rewrite IH.
Qed.

Lemma length_add_own k v o : length (add_own k v o) = S (length o).
Proof.
  induction o as [|[k' v'] t IH]; simpl; [reflexivity|].
  destruct (key_before k k'); simpl; congruence.
Qed.

Lemma in_keys_add_own k k' v o :
  In k' (keys (add_own k v o)) <-> k' = k \/ In k' (keys o).
Proof.
  unfold keys. induction o as [|[k0 v0] t IH]; simpl.
  - intuition.
  - destruct (key_before k k0); simpl; [intuition|].
    rewrite IH. intuition.
Qed.

Lemma get_own_define_own_eq k v o : get_own k (define_own k v o) = Some v.
Proof.
  unfold define_own. destruct (has_own k o) eqn:E.
  - now apply get_own_replace_own_eq.
  - apply get_own_add_own_eq. now apply has_own_false.
Qed.

Lemma get_own_define_own_ne k k' v o :
  k <> k' -> get_own k' (define_own k v o) = get_own k' o.
Proof.
  intros Hne. unfold define_own. destruct (has_own k o).
  - now apply get_own_replace_own_ne.
  - now apply get_own_add_own_ne.
Qed.

Lemma in_keys_define_own k k' v o :
  In k' (keys (define_own k v o)) <-> k' = k \/ In k' (keys o).
Proof.
  unfold define_own. destruct (has_own k o) eqn:E.
  - rewrite keys_replace_own. apply in_keys_has_own in E.
    split; [auto | intros [->|H]; assumption].
  - apply in_keys_add_own.
Qed.

Lemma length_keys_define_own k v o :
  length (keys (define_own k v o))
  = if has_own k o then length (keys o) else S (length (keys o)).
Proof.
  unfold define_own. destruct (has_own k o).
  - now rewrite keys_replace_own.
  - unfold keys. rewrite !length_map. apply length_add_own.
Qed.

Lemma get_own_delete_own_eq k o : get_own k (delete_own k o) = None.
Proof.
  unfold delete_own. induction o as [|[k' v'] t IH]; simpl; [reflexivity|].
  destruct (String.eqb k k') eqn:E; simpl; [assumption|].
  now rewrite E.
Qed.

Lemma get_own_delete_own_ne k k' o :
  k <> k' -> get_own k' (delete_own k o) = get_own k' o.
Proof.
  intros Hne. unfold delete_own.
  induction o as [|[k0 v0] t IH]; simpl; [reflexivity|].
  destruct (String.eqb_spec k k0) as [->|Hk]; simpl.
  - destruct (String.eqb_spec k' k0); congruence.
  - now rewrite IH.
Qed.

Lemma in_keys_delete_own k k' o :
  In k' (keys (delete_own k o)) <-> k' <> k /\ In k' (keys o).
Proof.
  unfold keys, delete_own. induction o as [|[k0 v0] t IH]; simpl.
  - tauto.
  - destruct (String.eqb_spec k k0) as [->|Hk]; simpl.
    + rewrite IH. intuition congruence.
    + rewrite IH. intuition congruence.
Qed.

(** Deleting a property that is not an own one changes nothing. *)
Lemma delete_own_absent k o : get_own k o = None -> delete_own k o = o.
Proof.
  unfold delete_own. induction o as [|[k' v'] t IH]; simpl; [reflexivity|].
  destruct (String.eqb k k'); simpl; [discriminate|].
  intros H. now rewrite IH.
Qed.

(** *** The key list stays that of an object *)

Lemma key_before_order k k' : key_before k k' = true -> key_order k k'.
Proof.
  unfold key_before, key_order.
  destruct (array_index k), (array_index k'); try discriminate; auto.
  intros H. apply N.ltb_lt in H. lia.
Qed.

Lemma key_not_before_order k k' : key_before k k' = false -> key_order k' k.
Proof.
  unfold key_before, key_order.
  destruct (array_index k), (array_index k'); try discriminate; auto.
  intros H. apply N.ltb_ge in H. exact H.
Qed.

Lemma key_before_order_trans k k' x :
  key_before k k' = true -> key_order k' x -> key_order k x.
Proof.
  unfold key_before, key_order.
  destruct (array_index k), (array_index k'), (array_index x);
    try discriminate; auto; try tauto.
  intros H1 H2. apply N.ltb_lt in H1. lia.
Qed.

Lemma sorted_add_own k v o :
  StronglySorted key_order (keys o) ->
  StronglySorted key_order (keys (add_own k v o)).
Proof.
  induction o as [|[k' v'] t IH]; simpl; intros Hsorted.
  - repeat constructor.
  - inversion Hsorted as [|? ? Ht Hall]; subst.
    destruct (key_before k k') eqn:E; simpl.
    + constructor; [assumption|]. constructor.
      * now apply key_before_order.
      * rewrite List.Forall_forall in Hall. apply List.Forall_forall.
        intros x Hx. apply (key_before_order_trans k k' x); auto.
    + constructor; [now apply IH|].
      apply List.Forall_forall. intros x Hx.
      apply in_keys_add_own in Hx as [->|Hx].
      * now apply key_not_before_order.
      * rewrite List.Forall_forall in Hall. now apply Hall.
Qed.

Lemma NoDup_add_own k v o :
  has_own k o = false ->
  List.NoDup (keys o) -> List.NoDup (keys (add_own k v o)).
Proof.
  intros Hfresh. assert (Hk : ~ In k (keys o)).
  { rewrite in_keys_has_own. congruence. }
  clear Hfresh. induction o as [|[k' v'] t IH]; simpl in *; intros Hnd.
  - repeat constructor. tauto.
  - inversion Hnd as [|? ? Hk' Ht]; subst.
    destruct (key_before k k'); simpl.
    + constructor; [exact Hk | exact Hnd].
    + constructor; [|apply IH; tauto].
      intros Hin. apply in_keys_add_own in Hin as [->|Hin]; tauto.
Qed.

Lemma well_formed_define_own k v o :
  well_formed o -> well_formed (define_own k v o).
Proof.
  unfold well_formed, define_own. intros [Hnd Hsorted].
  destruct (has_own k o) eqn:E.
  - now rewrite keys_replace_own.
  - split; [now apply NoDup_add_own | now apply sorted_add_own].
Qed.

Lemma keys_delete_own k o :
  keys (delete_own k o)
  = List.filter (fun k' => negb (String.eqb k k')) (keys o).
Proof.
  unfold keys, delete_own. induction o as [|[k' v'] t IH]; simpl;
    [reflexivity|].
  destruct (String.eqb k k'); simpl; congruence.
Qed.

Lemma sorted_filter (f : string -> bool) (l : list string) :
  StronglySorted key_order l ->
  StronglySorted key_order (List.filter f l).
Proof.
  induction 1 as [|x l Hl IH Hall]; simpl; [constructor|].
  destruct (f x); [|assumption].
  constructor; [assumption|].
  apply List.Forall_forall. intros y Hy. apply filter_In in Hy as [Hy _].
  rewrite List.Forall_forall in Hall. now apply Hall.
Qed.

Lemma well_formed_delete_own k o :
  well_formed o -> well_formed (delete_own k o).
Proof.
  unfold well_formed. rewrite keys_delete_own. intros [Hnd Hsorted].
  split; [now apply List.NoDup_filter | now apply sorted_filter].
Qed.

Lemma well_formed_set k v o : well_formed o -> well_formed (set k v o).
Proof.
  unfold set. destruct (String.eqb k "__proto__" && negb (has_own k o));
    [auto | apply well_formed_define_own].
Qed.

(** An assignment other than the prototype setter is an upsert. *)
Lemma set_defines k v o :
  k <> "__proto__" \/ has_own k o = true -> set k v o = define_own k v o.
Proof.
  unfold set. intros [Hne|Hown].
  - apply String.eqb_neq in Hne. now rewrite Hne.
  - rewrite Hown. now rewrite andb_false_r.
Qed.

Lemma set_proto_setter v o :
  has_own "__proto__" o = false -> set "__proto__" v o = o.
Proof. unfold set. intros ->. reflexivity. Qed.

Lemma get_truthy k o :
  truthy (get k o) = has_own k o || inherited k.
Proof.
  unfold get, has_own. destruct (get_own k o); simpl; [reflexivity|].
  destruct (inherited k); reflexivity.
Qed.

End OwnPropertyFacts.

(** ** [includes] is the substring relation *)

Lemma starts_with_spec p s :
  starts_with p s = true <-> exists post, s = (p ++ post)%string.
Proof.
  revert s. induction p as [|a p IH]; intros s; simpl.
  - split; eauto.
  - destruct s as [|b s].
    + split; [discriminate | intros [post H]; discriminate].
    + rewrite andb_true_iff, IH. split.
      * intros [Hab [post ->]]. apply Ascii.eqb_eq in Hab. subst. eauto.
      * intros [post H]. injection H as -> ->.
        split; [apply Ascii.eqb_refl | eauto].
Qed.

Lemma includes_spec s needle :
  includes s needle = true <-> contains needle s.
Proof.
  unfold contains. induction s as [|c s IH]; simpl.
  - rewrite orb_false_r, starts_with_spec. split.
    + intros [post H]. exists "", post. exact H.
    + intros [[|a pre] [post H]]; [eauto | discriminate].
  - rewrite orb_true_iff, starts_with_spec, IH. split.
    + intros [[post H]|[pre [post H]]].
      * exists "", post. exact H.
      * exists (String c pre), post. simpl. now rewrite H.
    + intros [[|a pre] [post H]].
      * left. eauto.
      * right. simpl in H. injection H as -> ->. eauto.
Qed.

Lemma includes_false s needle :
  includes s needle = false <-> ~ contains needle s.
Proof.
  rewrite <- includes_spec. destruct (includes s needle); split; congruence.
Qed.

(** ** [Promise.all] *)

Lemma omap_id_Some {A : Type} (rs : list A) : omap id (Some <$> rs) = rs.
Proof. induction rs as [|r rs IH]; [reflexivity | cbn; now rewrite IH]. Qed.

(** A list of completions that are all normal is the image of the
    list of their values. *)
Lemma all_normal_values {A : Type} (promises : list (Completion A)) :
  (forall p, p ∈ promises -> exists r, p = Normal r) ->
  exists rs, promises = Normal <$> rs.
Proof.
  induction promises as [|p rest IH]; intros Hall.
  - now exists [].
  - destruct (Hall p) as [r ->]; [left|].
    destruct IH as [rs ->]; [intros q Hq; apply Hall; now right|].
    now exists (r :: rs).
Qed.

(** The slots filled so far hold the values of the promises that have
    settled; once the promises still to settle have done so, in
    whatever order, the aggregate is fulfilled with all the values in
    the order of the promises. *)
Lemma promise_all_settle_fulfilled {A : Type} (rs : list A)
  (schedule : list nat) (values : list (option A)) :
  schedule <> [] ->
  NoDup schedule ->
  (forall i, i ∈ schedule -> i < length rs) ->
  length values = length rs ->
  (forall j r, rs !! j = Some r -> j ∉ schedule ->
               values !! j = Some (Some r)) ->
  promise_all_settle (Normal <$> rs) schedule values (length schedule)
  = Some (Normal rs).
Proof.
  revert values.
  induction schedule as [|i rest IH];
    intros values Hne Hnd Hlt Hlen Hval; [congruence|].
  destruct (lookup_lt_is_Some_2 rs i) as [r Hri]; [apply Hlt; left|].
  apply NoDup_cons in Hnd as [Hi Hnd].
  assert (Hvalues' : forall j r', rs !! j = Some r' -> j ∉ rest ->
            <[i:=Some r]> values !! j = Some (Some r')).
  { intros j r' Hj Hjrest. destruct (decide (j = i)) as [->|Hji].
    - rewrite list_lookup_insert_eq by (rewrite Hlen; apply Hlt; left).
      congruence.
    - rewrite list_lookup_insert_ne by congruence.
      apply Hval; [assumption|]. rewrite not_elem_of_cons. now split. }
  cbn [promise_all_settle]. rewrite list_lookup_fmap, Hri.
  cbn [fmap option_fmap option_map].
  destruct rest as [|i' rest'].
  - cbn [length]. f_equal. f_equal.
    transitivity (omap id (Some <$> rs)); [|apply omap_id_Some]. f_equal.
    apply list_eq. intros j. rewrite list_lookup_fmap.
    destruct (rs !! j) as [r'|] eqn:Hj; cbn [fmap option_fmap option_map].
    + apply Hvalues'; [assumption | apply not_elem_of_nil].
    + apply lookup_ge_None. rewrite length_insert, Hlen.
      now apply lookup_ge_None.
  - cbn [length Nat.pred]. apply (IH (<[i:=Some r]> values)).
    + discriminate.
    + assumption.
    + intros j Hj. apply Hlt. now right.
    + now rewrite length_insert.
    + assumption.
Qed.

(** [Promise.all] over promises that are all fulfilled, settling in any
    order. *)
Lemma promise_all_fulfilled {A : Type} (rs : list A) (schedule : list nat) :
  schedule ≡ₚ seq 0 (length rs) ->
  promise_all (Normal <$> rs) schedule = Some (Normal rs).
Proof.
  intros Hperm. destruct rs as [|r0 rs']; [reflexivity|].
  set (rs := r0 :: rs') in *.
  assert (Hlen : length schedule = length rs)
    by (rewrite Hperm; apply length_seq).
  assert (Hin : forall i, i ∈ schedule <-> i < length rs).
  { intros i. rewrite Hperm, elem_of_seq. lia. }
  unfold promise_all. change (Normal <$> rs) with (Normal r0 :: (Normal <$> rs')).
  cbv iota. change (Normal r0 :: (Normal <$> rs')) with (Normal <$> rs).
  rewrite length_fmap, <- Hlen.
  apply promise_all_settle_fulfilled.
  - intros ->. discriminate.
  - rewrite Hperm. apply NoDup_seq.
  - intros i. apply Hin.
  - now rewrite length_replicate.
  - intros j r Hj Hnot. exfalso. apply Hnot, Hin.
    now apply lookup_lt_Some in Hj.
Qed.

End JsFacts.

(* ===================================================================== *)
(** * The credential store: properties                                    *)
(* ===================================================================== *)

Module ConfigFacts.

Import Js.
Import JsFacts.
Import Config.

(** ** The document on disk *)

Lemma credentials_map_roundtrip (cs : list (string * Credentials)) :
  credentials_map_of_json
    (List.map (fun p => (fst p, json_of_credentials (snd p))) cs) = Some cs.
Proof.
  induction cs as [|[k [u t]] rest IH]; simpl; [reflexivity|].
  now rewrite IH.
Qed.

Lemma config_of_json_of_config (c : Config) :
  config_of_json (json_of_config c) = Some c.
Proof.
  destruct c as [a cs]. unfold json_of_config, config_of_json. simpl.
  rewrite credentials_map_roundtrip. now destruct a.
Qed.



(** [readConfig] throws when the directory cannot be created. *)
Lemma readConfig_throws_dir_blocked (f : FileState) (w : bool) :
  readConfig {| dir := DirBlocked; file := f; writable := w |} = Throws.
Proof. reflexivity. Qed.

(** C3, as stated, fails: a file holding the JSON text of the empty
    object does not have the expected structure, yet [readConfig]
    returns that value and not the default document. *)
Lemma readConfig_unstructured_json_returned :
  let d := {| dir := DirPresent; file := FileText (Some (JObj []));
              writable := true |} in
  config_of_json (JObj []) = None
  /\ readConfig d = Returns (JObj []) d
  /\ JObj [] <> json_of_config getDefaultConfig.
Proof.
  cbv zeta. repeat split. discriminate.
Qed.

(** C3, amended: when the configuration directory exists or can be
    created, [readConfig] returns without throwing; the value is the
    default empty document when the file is absent, cannot be read or
    is not JSON, and otherwise the value [JSON.parse] produced, whatever
    its structure; for a file holding a stored document it is that
    document. *)
Theorem readConfig_returns (d : Disk) :
  dir d <> DirBlocked ->
  exists v d',
    readConfig d = Returns v d'
    /\ (dir d = DirMissing -> v = json_of_config getDefaultConfig)
    /\ (dir d = DirPresent ->
        match file d with
        | FileAbsent | FileUnreadable | FileText None =>
            v = json_of_config getDefaultConfig
        | FileText (Some j) =>
            v = j
            /\ forall c, j = json_of_config c -> config_of_json v = Some c
        end).
Proof.
  intros Hdir. unfold readConfig, ensureConfigDir.
  destruct d as [[] f w]; simpl in *; try congruence.
  - destruct f as [| |[j|]]; eexists; eexists;
      (split; [reflexivity|]); (split; [discriminate|]); intros _;
      try reflexivity.
    split; [reflexivity|]. intros c ->. apply config_of_json_of_config.
  - eexists; eexists. split; [reflexivity|].
    split; [reflexivity | discriminate].
Qed.

Lemma readConfig_returns_witness :
  exists v d',
    readConfig {| dir := DirPresent;
                  file := FileText (Some (json_of_config getDefaultConfig));
                  writable := true |} = Returns v d'
    /\ v = json_of_config getDefaultConfig.
Proof.
  destruct (readConfig_returns
              {| dir := DirPresent;
                 file := FileText (Some (json_of_config getDefaultConfig));
                 writable := true |})
    as (v & d' & Hread & _ & Hpresent).
  - simpl. discriminate.
  - exists v, d'. split; [exact Hread|].
    destruct (Hpresent eq_refl) as [Hv _]. exact Hv.
Defined.

(** Every call leaves a mapping whose key list is that of an object:
    no key twice, array indices first and ascending. *)
Theorem well_formed_step (config : Config) (op : Op) :
  well_formed (credentials config) ->
  well_formed (credentials (step config op)).
Proof.
  intros Hwf. destruct op as [name creds | name | name]; simpl.
  - unfold after, addCredentials. simpl. now apply well_formed_set.
  - unfold after, removeCredentials.
    destruct (negb (truthy (get name (credentials config)))); simpl;
      [assumption | now apply well_formed_delete_own].
  - unfold after, setActive.
    destruct (negb (truthy (get name (credentials config)))); assumption.
Qed.

Lemma well_formed_step_witness :
  well_formed
    (credentials
       (step {| active := Some "b";
                credentials := [("7", {| url := "u"; token := "t" |});
                                ("b", {| url := "v"; token := "s" |})] |}
             (Add "3" {| url := "w"; token := "r" |}))).
Proof.
  apply (well_formed_step
           {| active := Some "b";
              credentials := [("7", {| url := "u"; token := "t" |});
                              ("b", {| url := "v"; token := "s" |})] |}
           (Add "3" {| url := "w"; token := "r" |})).
  split.
  - repeat constructor; simpl; intuition discriminate.
  - repeat constructor.
Defined.

(** ** [setActive] *)

(** [setActive] on a stored name. *)
Lemma setActive_stored (name : string) (config : Config) :
  has_own name (credentials config) = true ->
  setActive name config
  = {| result := true;
       written := Some {| active := Some name;
                          credentials := credentials config |} |}.
Proof.
  intros Hown. unfold setActive. now rewrite get_truthy, Hown.
Qed.

(** The contract of [setActive] for every name that is not a member of
    [Object.prototype]: on a stored name, true, and the document
    written differs only in that [active] is the name; on any other
    name, false, and nothing is written. *)
Theorem setActive_plain (name : string) (config : Config) :
  inherited name = false ->
  (has_own name (credentials config) = true ->
   setActive name config
   = {| result := true;
        written := Some {| active := Some name;
                           credentials := credentials config |} |})
  /\ (has_own name (credentials config) = false ->
      setActive name config = {| result := false; written := None |}
      /\ after (setActive name config) config = config).
Proof.
  intros Hplain. split; [apply setActive_stored|].
  intros Hown. unfold setActive, after.
  rewrite get_truthy, Hown, Hplain. simpl. split; reflexivity.
Qed.

Lemma setActive_plain_witness :
  setActive "staging" getDefaultConfig = {| result := false; written := None |}
  /\ after (setActive "staging" getDefaultConfig) getDefaultConfig
     = getDefaultConfig.
Proof.
  destruct (setActive_plain "staging" getDefaultConfig eq_refl)
    as [_ Habsent].
  apply Habsent. reflexivity.
Defined.

(** C5 at a failing input: ["constructor"] is not a stored key of the
    empty document, yet [setActive("constructor")] returns true and
    writes a document whose [active] is ["constructor"]. *)
Theorem setActive_inherited_name :
  has_own "constructor" (credentials getDefaultConfig) = false
  /\ setActive "constructor" getDefaultConfig
     = {| result := true;
          written := Some {| active := Some "constructor";
                             credentials := [] |} |}.
Proof. split; reflexivity. Qed.

(** ** [removeCredentials] *)

(** [removeCredentials] on a name that is neither stored nor a member
    of [Object.prototype]: false, and nothing is written. *)
Lemma removeCredentials_absent_plain (name : string) (config : Config) :
  inherited name = false ->
  get_own name (credentials config) = None ->
  removeCredentials name config = {| result := false; written := None |}.
Proof.
  intros Hplain Hnone. unfold removeCredentials.
  apply has_own_false in Hnone. now rewrite get_truthy, Hnone, Hplain.
Qed.

(** [removeCredentials] on a stored name: the entry is deleted, the
    others are kept, true is returned; if the name was the active one,
    [active] becomes the first remaining key, or null when none remains;
    otherwise [active] is kept. *)
Lemma removeCredentials_stored (name : string) (config : Config) :
  has_own name (credentials config) = true ->
  exists config',
    removeCredentials name config
    = {| result := true; written := Some config' |}
    /\ credentials config' = delete_own name (credentials config)
    /\ get_own name (credentials config') = None
    /\ (forall k, k <> name ->
        get_own k (credentials config') = get_own k (credentials config))
    /\ (active config = Some name ->
        match keys (credentials config') with
        | [] => active config' = None
        | k :: _ => active config' = Some k
                    /\ In k (keys (credentials config'))
        end)
    /\ (active config <> Some name -> active config' = active config).
Proof.
  intros Hown. unfold removeCredentials. rewrite get_truthy, Hown. simpl.
  eexists. split; [reflexivity|]. simpl.
  split; [reflexivity|].
  split; [apply get_own_delete_own_eq|].
  split; [intros k Hk; apply get_own_delete_own_ne; congruence|].
  unfold is_active. split.
  - intros ->. rewrite String.eqb_refl.
    destruct (keys (delete_own name (credentials config))); simpl; auto.
  - intros Hne. destruct (active config) as [a|]; [|reflexivity].
    destruct (String.eqb_spec a name); congruence.
Qed.

(** The contract of [removeCredentials] for every name that is not a
    member of [Object.prototype]. *)
Theorem removeCredentials_plain (name : string) (config : Config) :
  inherited name = false ->
  (get_own name (credentials config) = None ->
   removeCredentials name config = {| result := false; written := None |})
  /\ (has_own name (credentials config) = true ->
      exists config',
        removeCredentials name config
        = {| result := true; written := Some config' |}
        /\ get_own name (credentials config') = None
        /\ (forall k, k <> name ->
            get_own k (credentials config') = get_own k (credentials config))
        /\ (active config = Some name ->
            match keys (credentials config') with
            | [] => active config' = None
            | k :: _ => active config' = Some k
                        /\ In k (keys (credentials config'))
            end)
        /\ (active config <> Some name -> active config' = active config)).
Proof.
  intros Hplain. split.
  - now apply removeCredentials_absent_plain.
  - intros Hown. destruct (removeCredentials_stored name config Hown)
      as (config' & Hcall & _ & Hrest).
    exists config'. split; assumption.
Qed.

Lemma removeCredentials_plain_witness :
  removeCredentials "staging" getDefaultConfig
  = {| result := false; written := None |}.
Proof.
  apply (removeCredentials_plain "staging" getDefaultConfig); reflexivity.
Defined.

(** C2 at a failing input: ["toString"] is absent from the empty
    document, yet [removeCredentials("toString")] returns true and
    writes the document back. *)
Theorem removeCredentials_inherited_name :
  get_own "toString" (credentials getDefaultConfig) = None
  /\ removeCredentials "toString" getDefaultConfig
     = {| result := true; written := Some getDefaultConfig |}.
Proof. split; reflexivity. Qed.

(** ** [addCredentials] *)

(** [addCredentials] with a name that is not [__proto__] (or is an own
    key already): the document written binds the name to the
    credentials and keeps every other entry; the name becomes active if
    the document then holds exactly one credential set, and [active] is
    kept otherwise. *)
Theorem addCredentials_upsert (name : string) (creds : Credentials)
  (config : Config) :
  name <> "__proto__" \/ has_own name (credentials config) = true ->
  exists config',
    addCredentials name creds config
    = {| result := tt; written := Some config' |}
    /\ get_own name (credentials config') = Some creds
    /\ (forall k, k <> name ->
        get_own k (credentials config') = get_own k (credentials config))
    /\ (length (keys (credentials config')) = 1 -> active config' = Some name)
    /\ (length (keys (credentials config')) <> 1 ->
        active config' = active config).
Proof.
  intros Hname. unfold addCredentials. eexists. split; [reflexivity|]. simpl.
  rewrite (set_defines name creds (credentials config) Hname).
  split; [apply get_own_define_own_eq|].
  split; [intros k Hk; apply get_own_define_own_ne; congruence|].
  split; intros Hlen.
  - now rewrite Hlen.
  - apply Nat.eqb_neq in Hlen. now rewrite Hlen.
Qed.

Lemma addCredentials_upsert_witness :
  exists config',
    addCredentials "prod" {| url := "https://example.org"; token := "t" |}
                   getDefaultConfig
    = {| result := tt; written := Some config' |}
    /\ get_own "prod" (credentials config')
       = Some {| url := "https://example.org"; token := "t" |}
    /\ active config' = Some "prod".
Proof.
  destruct (addCredentials_upsert "prod"
              {| url := "https://example.org"; token := "t" |}
              getDefaultConfig)
    as (config' & Hcall & Hget & _ & Hone & _).
  - left. discriminate.
  - exists config'. split; [exact Hcall|]. split; [exact Hget|].
    apply Hone. injection Hcall as <-. reflexivity.
Defined.

(** Adding the first credential set makes it active. *)
Lemma addCredentials_first (name : string) (creds : Credentials)
  (a : option string) :
  name <> "__proto__" ->
  after (addCredentials name creds {| active := a; credentials := [] |})
        {| active := a; credentials := [] |}
  = {| active := Some name; credentials := [(name, creds)] |}.
Proof.
  intros Hne. unfold after, addCredentials. simpl.
  rewrite set_defines by (now left). reflexivity.
Qed.

(** Adding a second credential set keeps [active]. *)
Lemma addCredentials_second (name name1 : string) (creds creds1 : Credentials)
  (a : option string) :
  name <> "__proto__" ->
  name <> name1 ->
  active (after (addCredentials name creds
                   {| active := a; credentials := [(name1, creds1)] |})
                {| active := a; credentials := [(name1, creds1)] |})
  = a.
Proof.
  intros Hne Hne1. unfold after, addCredentials. simpl.
  rewrite set_defines by (now left).
  rewrite length_keys_define_own. unfold has_own. simpl.
  apply String.eqb_neq in Hne1. now rewrite Hne1.
Qed.

(** C4 at a failing input: after [addCredentials("__proto__", creds)]
    on the empty document, the document written is still empty: the
    mapping does not bind ["__proto__"]. *)
Theorem addCredentials_proto_not_stored (creds : Credentials) :
  addCredentials "__proto__" creds getDefaultConfig
  = {| result := tt; written := Some getDefaultConfig |}
  /\ get_own "__proto__"
       (credentials (after (addCredentials "__proto__" creds getDefaultConfig)
                           getDefaultConfig)) = None.
Proof. split; reflexivity. Qed.

(** ** [getActiveCredentials] *)

(** For a document whose [active] is not the name of a member of
    [Object.prototype]: null when [active] is null or dangling, and a
    pair that is returned holds a stored name with its credentials. *)
Theorem getActiveCredentials_plain (config : Config) :
  (forall a, active config = Some a -> inherited a = false) ->
  (active config = None -> getActiveCredentials config = None)
  /\ (forall a, active config = Some a ->
      get_own a (credentials config) = None ->
      getActiveCredentials config = None)
  /\ (forall a r, getActiveCredentials config = Some (a, r) ->
      exists c, r = Own c
                /\ active config = Some a
                /\ get_own a (credentials config) = Some c
                /\ In a (keys (credentials config))).
Proof.
  intros Hplain. unfold getActiveCredentials.
  destruct (active config) as [a0|] eqn:Ha.
  - specialize (Hplain a0 eq_refl).
    split; [discriminate|]. split.
    + intros a [= <-] Hnone. unfold get. rewrite Hnone, Hplain. simpl.
      now rewrite orb_true_r.
    + intros a r. unfold get.
      destruct (get_own a0 (credentials config)) as [c|] eqn:Hget.
      * cbn [truthy negb]. rewrite orb_false_r.
        destruct (negb (truthy_name (Some a0))); [discriminate|].
        intros [= <- <-]. exists c. repeat split; try assumption.
        apply in_keys_has_own, has_own_true. eauto.
      * rewrite Hplain. simpl. rewrite orb_true_r. discriminate.
  - split; [reflexivity|]. split; [discriminate|]. discriminate.
Qed.

Lemma getActiveCredentials_plain_witness :
  getActiveCredentials {| active := Some "gone"; credentials := [] |} = None.
Proof.
  destruct (getActiveCredentials_plain
              {| active := Some "gone"; credentials := [] |})
    as (_ & Hdangling & _).
  - intros a [= <-]. reflexivity.
  - apply (Hdangling "gone"); reflexivity.
Defined.

(** C9 at a failing input: [active] is ["toString"], which is not a key
    of the mapping, yet [getActiveCredentials] returns a pair, whose
    credentials are the function [Object.prototype.toString]. *)
Theorem getActiveCredentials_inherited_name :
  get_own "toString" (@nil (string * Credentials)) = None
  /\ getActiveCredentials {| active := Some "toString"; credentials := [] |}
     = Some ("toString", Inherited "toString").
Proof. split; reflexivity. Qed.

(** ** The invariant *)

Lemma active_okb_spec (config : Config) :
  active_okb config = true <-> active_ok config.
Proof.
  unfold active_okb, active_ok. destruct (active config) as [a|]; [|tauto].
  rewrite existsb_exists. split.
  - intros (k & Hin & Heq). apply String.eqb_eq in Heq. now subst.
  - intros Hin. exists a. split; [assumption | apply String.eqb_refl].
Qed.

Lemma active_ok_default : active_ok getDefaultConfig.
Proof. exact I. Qed.

Lemma active_ok_step (config : Config) (op : Op) :
  active_ok config -> plain_op op -> active_ok (step config op).
Proof.
  unfold active_ok. intros Hok Hplain.
  destruct op as [name creds | name | name]; simpl in *.
  - unfold after, addCredentials. simpl.
    rewrite set_defines by (now left).
    destruct (Nat.eqb _ 1).
    + apply in_keys_define_own. now left.
    + destruct (active config) as [a|]; [|exact I].
      apply in_keys_define_own. now right.
  - unfold after, removeCredentials.
    destruct (negb (truthy (get name (credentials config)))); simpl;
      [exact Hok|].
    unfold is_active. destruct (active config) as [a|]; [|exact I].
    destruct (String.eqb_spec a name) as [->|Hne].
    + destruct (keys (delete_own name (credentials config))) as [|k rest];
        simpl; [exact I | now left].
    + apply in_keys_delete_own. split; assumption.
  - unfold after, setActive. rewrite get_truthy, Hplain, orb_false_r.
    destruct (has_own name (credentials config)) eqn:Hown; simpl.
    + now apply in_keys_has_own.
    + exact Hok.
Qed.

(** The invariant holds after every call of a sequence of calls that
    stay clear of [Object.prototype]. *)
Theorem active_ok_trace (ops : list Op) :
  List.Forall plain_op ops ->
  List.Forall active_ok (trace getDefaultConfig ops).
Proof.
  generalize active_ok_default. generalize getDefaultConfig as config.
  induction ops as [|op rest IH]; intros config Hok Hplain; simpl.
  - constructor.
  - inversion Hplain as [|? ? Hop Hrest]; subst.
    pose proof (active_ok_step config op Hok Hop) as Hstep.
    constructor; [exact Hstep | now apply IH].
Qed.

Lemma active_ok_trace_witness :
  List.Forall active_ok
    (trace getDefaultConfig
       [Add "a" {| url := "u"; token := "t" |};
        Add "b" {| url := "v"; token := "s" |};
        SetActive "b"; Remove "b"; Remove "a"]).
Proof.
  apply (active_ok_trace
           [Add "a" {| url := "u"; token := "t" |};
            Add "b" {| url := "v"; token := "s" |};
            SetActive "b"; Remove "b"; Remove "a"]).
  repeat constructor; discriminate.
Defined.

(** C1 at a failing input: from the empty document, one call
    [setActive("toString")] leaves a document whose [active] is not a
    key of its mapping. *)
Theorem setActive_inherited_breaks_invariant :
  trace getDefaultConfig [SetActive "toString"]
  = [{| active := Some "toString"; credentials := [] |}]
  /\ active_okb {| active := Some "toString"; credentials := [] |} = false
  /\ ~ active_ok {| active := Some "toString"; credentials := [] |}.
Proof.
  split; [reflexivity|]. split; [reflexivity|].
  unfold active_ok. simpl. tauto.
Qed.

(** Two calls of [addCredentials] alone do the same: the second runs the
    prototype setter, leaves one credential set, and so makes the name
    [__proto__] active. *)
Lemma addCredentials_proto_breaks_invariant (creds : Credentials) :
  trace getDefaultConfig [Add "a" creds; Add "__proto__" creds]
  = [{| active := Some "a"; credentials := [("a", creds)] |};
     {| active := Some "__proto__"; credentials := [("a", creds)] |}]
  /\ active_okb {| active := Some "__proto__";
                   credentials := [("a", creds)] |} = false.
Proof. split; reflexivity. Qed.

End ConfigFacts.

(* ===================================================================== *)
(** * The validator: properties                                           *)
(* ===================================================================== *)

Module ValidatorFacts.

Import Js.
Import JsFacts.
Import Config.
Import Validator.

(** ** Helpers *)

Lemma strip_trailing_slashes_examples :
  strip_trailing_slashes "https://cms.example.org///" = "https://cms.example.org"
  /\ strip_trailing_slashes "https://cms.example.org/api" = "https://cms.example.org/api"
  /\ strip_trailing_slashes "//" = "".
Proof. repeat split. Qed.

(** The URL is the stripped URL followed by slashes only, and the
    stripped URL does not end with a slash. *)
Theorem strip_trailing_slashes_spec (s : string) :
  exists tail,
    s = (strip_trailing_slashes s ++ tail)%string
    /\ only_slashes tail = true
    /\ ends_with_slash (strip_trailing_slashes s) = false.
Proof.
  induction s as [|c t (tail & Ht & Htail & Hend)].
  - now exists "".
  - cbn [strip_trailing_slashes].
    destruct (strip_trailing_slashes t) as [|c' t'] eqn:Hstrip.
    + change (t = tail) in Ht. subst tail.
      destruct (Ascii.eqb c "/") eqn:Hc.
      * exists (String c t). cbn [only_slashes]. rewrite Hc, Htail.
        repeat split.
      * exists t. cbn [ends_with_slash]. rewrite Hc, Htail. repeat split.
    + exists tail. split; [|split; assumption].
      change (String c t = String c (String c' t' ++ tail)%string).
      now rewrite <- Ht.
Qed.

(** The request: [GET <url without trailing slashes>/users/me] with
    the token as bearer credential. *)
Lemma request_for_spec (creds : Credentials) :
  request_for creds
  = {| endpoint := (strip_trailing_slashes (url creds) ++ "/users/me")%string;
       method := "GET";
       authorization := ("Bearer " ++ token creds)%string;
       content_type := "application/json" |}.
Proof. reflexivity. Qed.

Lemma ok_range (r : Response) :
  ok r = true <-> (200 <= status r <= 299)%N.
Proof. unfold ok. rewrite andb_true_iff, !N.leb_le. tauto. Qed.

(** Reading one of the identity fields from a value that is neither
    [undefined] nor [null] does not throw. *)
Lemma read_field_defined (u : JsValue) (f : Field) :
  u <> JNull -> read_field (Some u) f = Normal (own_field u f).
Proof. destruct u; simpl; congruence. Qed.

Lemma try_block_not_ok (name0 : string) (r : Response) :
  ok r = false ->
  try_block name0 (Responds r)
  = Normal (failure name0 (message_for_status (status r))).
Proof. unfold try_block. simpl. now intros ->. Qed.

Lemma try_block_identity (name0 : string) (r : Response) (data u : JsValue) :
  ok r = true ->
  body r = BodyJson data ->
  own_field data f_data = Some u ->
  u <> JNull ->
  try_block name0 (Responds r)
  = Normal {| name := name0; success := true; message := "Valid";
              user := Some (identity_of u) |}.
Proof.
  intros Hok Hbody Hdata Hu. unfold try_block.
  cbn [await_fetch bind]. rewrite Hok, Hbody. cbn [negb await_json bind].
  assert (Hnull : data <> JNull) by (intros ->; discriminate).
  rewrite (read_field_defined data f_data Hnull), Hdata. cbn [bind].
  rewrite !read_field_defined by assumption. reflexivity.
Qed.

(** The block throws on a success status exactly in these cases. *)
Lemma try_block_body_throws (name0 : string) (r : Response) (e : Thrown) :
  ok r = true ->
  body r = BodyThrows e ->
  try_block name0 (Responds r) = Abrupt e.
Proof. intros Hok Hbody. unfold try_block. simpl. now rewrite Hok, Hbody. Qed.

Lemma try_block_no_data (name0 : string) (r : Response) (data : JsValue) :
  ok r = true ->
  body r = BodyJson data ->
  try_block name0 (Responds r)
  = match data, own_field data f_data with
    | JNull, _ => Abrupt (cannot_read "null" f_data)
    | _, None => Abrupt (cannot_read "undefined" f_id)
    | _, Some JNull => Abrupt (cannot_read "null" f_id)
    | _, Some u => Normal {| name := name0; success := true;
                             message := "Valid";
                             user := Some (identity_of u) |}
    end.
Proof.
  intros Hok Hbody. unfold try_block. simpl. rewrite Hok, Hbody. simpl.
  destruct data; try reflexivity. simpl.
  destruct (get_own "data" props) as [u|]; [|reflexivity].
  destruct u; reflexivity.
Qed.

(** The messages of the three [TypeError]s pass the handler unchanged. *)
Lemma catch_message_cannot_read :
  catch_message (cannot_read "null" f_data)
  = "Cannot read properties of null (reading 'data')"
  /\ catch_message (cannot_read "undefined" f_id)
     = "Cannot read properties of undefined (reading 'id')"
  /\ catch_message (cannot_read "null" f_id)
     = "Cannot read properties of null (reading 'id')".
Proof. repeat split. Qed.

(** ** Totality *)

Lemma validateCredentials_returns (fetch : Request -> FetchOutcome)
  (name0 : string) (creds : Credentials) :
  exists r, validateCredentials fetch name0 creds = Normal r /\ name r = name0.
Proof.
  unfold validateCredentials.
  destruct (fetch (request_for creds)) as [resp|e].
  - destruct (ok resp) eqn:Hok.
    + destruct (body resp) as [data|e] eqn:Hbody.
      * rewrite (try_block_no_data name0 resp data Hok Hbody).
        destruct data; try (eexists; split; reflexivity).
        destruct (own_field (JObj props) f_data) as [[]|];
          eexists; split; reflexivity.
      * rewrite (try_block_body_throws name0 resp e Hok Hbody).
        eexists; split; reflexivity.
    + rewrite (try_block_not_ok name0 resp Hok). eexists; split; reflexivity.
  - eexists; split; reflexivity.
Qed.

(** ** HTTP responses *)

(** C6, as stated, fails: a response with the success status 204 and
    an empty body, on which [response.json()] throws, yields
    [success = false]. *)
Lemma validateCredentials_success_status_empty_body :
  let r := {| status := 204;
              body := BodyThrows (ErrorObj "Unexpected end of JSON input") |} in
  ok r = true
  /\ validateCredentials (fun _ => Responds r) "prod"
       {| url := "https://cms.example.org"; token := "t" |}
     = Normal (failure "prod" "Unexpected end of JSON input").
Proof. split; reflexivity. Qed.

(** C6, amended: for every response [validateCredentials] returns a
    result without throwing; for a response with a non-success status
    the result is [success = false] with the message of the status
    (401, 403, 404, or "HTTP <code>" for any other); for a response
    with a success status whose body is JSON with a [data] member that
    is not null, the result is [success = true], message "Valid", and
    the identity read from that member, each field being undefined when
    absent. *)
Theorem validateCredentials_response (fetch : Request -> FetchOutcome)
  (name0 : string) (creds : Credentials) (r : Response) :
  fetch (request_for creds) = Responds r ->
  (exists res,
     validateCredentials fetch name0 creds = Normal res /\ name res = name0)
  /\
  (ok r = false ->
   exists msg,
     validateCredentials fetch name0 creds = Normal (failure name0 msg)
     /\ (status r = 401%N -> msg = "Unauthorized - Invalid or expired token")
     /\ (status r = 403%N ->
         msg = "Forbidden - Token lacks required permissions")
     /\ (status r = 404%N -> msg = "Not found - Check if the URL is correct")
     /\ (status r <> 401%N -> status r <> 403%N -> status r <> 404%N ->
         msg = ("HTTP " ++ pretty (status r))%string))
  /\ (ok r = true ->
      forall data u,
        body r = BodyJson data ->
        own_field data f_data = Some u ->
        u <> JNull ->
        validateCredentials fetch name0 creds
        = Normal {| name := name0; success := true; message := "Valid";
                    user := Some (identity_of u) |}).
Proof.
  intros Hfetch. split; [apply validateCredentials_returns|].
  unfold validateCredentials. rewrite Hfetch. split.
  - intros Hok. rewrite (try_block_not_ok name0 r Hok).
    exists (message_for_status (status r)). split; [reflexivity|].
    unfold message_for_status.
    repeat split; try (intros ->; reflexivity).
    intros H1 H3 H4. apply N.eqb_neq in H1, H3, H4. now rewrite H1, H3, H4.
  - intros Hok data u Hbody Hdata Hu.
    now rewrite (try_block_identity name0 r data u Hok Hbody Hdata Hu).
Qed.

Lemma validateCredentials_response_witness :
  validateCredentials
    (fun _ => Responds
       {| status := 200;
          body := BodyJson
            (JObj [("data",
                    JObj [("id", JStr "1"); ("email", JStr "a@b.com")])]) |})
    "prod" {| url := "https://cms.example.org/"; token := "t" |}
  = Normal {| name := "prod"; success := true; message := "Valid";
              user := Some {| id := Some (JStr "1");
                              email := Some (JStr "a@b.com");
                              first_name := None; last_name := None |} |}.
Proof.
  destruct (validateCredentials_response
              (fun _ => Responds
                 {| status := 200;
                    body := BodyJson
                      (JObj [("data",
                              JObj [("id", JStr "1");
                                    ("email", JStr "a@b.com")])]) |})
              "prod" {| url := "https://cms.example.org/"; token := "t" |}
              _ eq_refl) as (_ & _ & Hsuccess).
  apply (Hsuccess eq_refl _ _ eq_refl eq_refl). discriminate.
Defined.

(** C10, as stated, fails: a success body whose [data] member is the
    number 1, not an object, yields [success = true], with an identity
    whose fields are all undefined. *)
Lemma validateCredentials_data_not_object :
  validateCredentials
    (fun _ => Responds
       {| status := 200; body := BodyJson (JObj [("data", JNum 1 0)]) |})
    "prod" {| url := "https://cms.example.org"; token := "t" |}
  = Normal {| name := "prod"; success := true; message := "Valid";
              user := Some {| id := None; email := None;
                              first_name := None; last_name := None |} |}.
Proof. reflexivity. Qed.

(** C10, amended: [validateCredentials] always returns a result, for
    the name it was given.  For a success status: a body on which
    [response.json()] throws gives [success = false] with the
    handler's message for the error thrown; a body that is [null], or
    whose [data] member is absent or [null], gives [success = false]
    with the message of the [TypeError]; every other body, also one
    whose [data] member is not an object, gives [success = true]. *)
Theorem validateCredentials_success_status (fetch : Request -> FetchOutcome)
  (name0 : string) (creds : Credentials) :
  exists res,
    validateCredentials fetch name0 creds = Normal res
    /\ name res = name0
    /\ forall r,
        fetch (request_for creds) = Responds r ->
        ok r = true ->
        match body r with
        | BodyThrows e => res = failure name0 (catch_message e)
        | BodyJson JNull =>
            res = failure name0
                    "Cannot read properties of null (reading 'data')"
        | BodyJson data =>
            match own_field data f_data with
            | None =>
                res = failure name0
                        "Cannot read properties of undefined (reading 'id')"
            | Some JNull =>
                res = failure name0
                        "Cannot read properties of null (reading 'id')"
            | Some u =>
                res = {| name := name0; success := true; message := "Valid";
                         user := Some (identity_of u) |}
            end
        end.
Proof.
  destruct (validateCredentials_returns fetch name0 creds) as (res & Hres & Hname).
  exists res. split; [exact Hres|]. split; [exact Hname|].
  intros r Hfetch Hok. unfold validateCredentials in Hres.
  rewrite Hfetch in Hres.
  destruct (body r) as [data|e] eqn:Hbody.
  - rewrite (try_block_no_data name0 r data Hok Hbody) in Hres.
    destruct data; try (now injection Hres as <-).
    destruct (own_field (JObj props) f_data) as [[]|];
      now injection Hres as <-.
  - rewrite (try_block_body_throws name0 r e Hok Hbody) in Hres.
    now injection Hres as <-.
Qed.

(** ** Network failures *)

(** C7, as stated, fails: the text below contains "certificate", yet the
    message is not "SSL certificate error", because the text also
    contains "ECONNREFUSED", which is tested first. *)
Lemma validateCredentials_first_pattern_decides :
  let text := "connect ECONNREFUSED 10.0.0.1:8055 (certificate not checked)" in
  contains "certificate" text
  /\ validateCredentials (fun _ => Fails (ErrorObj text)) "prod"
       {| url := "https://cms.example.org"; token := "t" |}
     = Normal (failure "prod" "Connection refused - Server may be down")
  /\ "Connection refused - Server may be down" <> "SSL certificate error".
Proof.
  cbv zeta. split; [|split; [reflexivity | discriminate]].
  apply includes_spec. reflexivity.
Qed.

(** C7, amended: a failure raised by the request yields
    [success = false] and is not propagated; the error text is tested
    for "ECONNREFUSED", "ENOTFOUND", "ETIMEDOUT" and "certificate" in
    that order and the first one it contains decides the message; a
    text that contains none is the message itself; a thrown value that
    is not an [Error] gives "Unknown error". *)
Theorem validateCredentials_network_failure (fetch : Request -> FetchOutcome)
  (name0 : string) (creds : Credentials) (e : Thrown) :
  fetch (request_for creds) = Fails e ->
  exists msg,
    validateCredentials fetch name0 creds = Normal (failure name0 msg)
    /\ (e = NotAnError -> msg = "Unknown error")
    /\ forall m, e = ErrorObj m ->
        (contains "ECONNREFUSED" m ->
         msg = "Connection refused - Server may be down")
        /\ (~ contains "ECONNREFUSED" m -> contains "ENOTFOUND" m ->
            msg = "Host not found - Check the URL")
        /\ (~ contains "ECONNREFUSED" m -> ~ contains "ENOTFOUND" m ->
            contains "ETIMEDOUT" m -> msg = "Connection timed out")
        /\ (~ contains "ECONNREFUSED" m -> ~ contains "ENOTFOUND" m ->
            ~ contains "ETIMEDOUT" m -> contains "certificate" m ->
            msg = "SSL certificate error")
        /\ (~ contains "ECONNREFUSED" m -> ~ contains "ENOTFOUND" m ->
            ~ contains "ETIMEDOUT" m -> ~ contains "certificate" m ->
            msg = m).
Proof.
  intros Hfetch. unfold validateCredentials. rewrite Hfetch.
  exists (catch_message e). split; [reflexivity|].
  split; [now intros ->|]. intros m ->. unfold catch_message.
  repeat split;
    repeat match goal with
    | |- contains _ _ -> _ =>
        let H := fresh in intros H; apply includes_spec in H; rewrite H
    | |- ~ contains _ _ -> _ =>
        let H := fresh in intros H; apply includes_false in H; rewrite H
    end; reflexivity.
Qed.

Lemma validateCredentials_network_failure_witness :
  exists msg,
    validateCredentials
      (fun _ => Fails (ErrorObj "connect ECONNREFUSED 127.0.0.1:8055"))
      "prod" {| url := "http://localhost:8055"; token := "t" |}
    = Normal (failure "prod" msg)
    /\ msg = "Connection refused - Server may be down".
Proof.
  destruct (validateCredentials_network_failure
              (fun _ => Fails (ErrorObj "connect ECONNREFUSED 127.0.0.1:8055"))
              "prod" {| url := "http://localhost:8055"; token := "t" |}
              (ErrorObj "connect ECONNREFUSED 127.0.0.1:8055") eq_refl)
    as (msg & Hres & _ & Hmsg).
  exists msg. split; [exact Hres|].
  apply (Hmsg _ eq_refl). apply includes_spec. reflexivity.
Defined.

(** ** [validateAllCredentials] *)

(** C8: whatever the order in which the requests settle, the aggregate
    is fulfilled, never rejected, with one result per entry of the
    mapping, in the order of the entries, each carrying its entry's
    name and being the result of validating that entry. *)
Theorem validateAllCredentials_in_order
  (fetches : nat -> Request -> FetchOutcome) (schedule : list nat)
  (credentialsMap : list (string * Credentials)) :
  schedule ≡ₚ seq 0 (length (entries credentialsMap)) ->
  exists results,
    validateAllCredentials fetches schedule credentialsMap
    = Some (Normal results)
    /\ length results = length (entries credentialsMap)
    /\ List.map name results = keys credentialsMap
    /\ forall i entry,
        entries credentialsMap !! i = Some entry ->
        exists res,
          results !! i = Some res
          /\ validateCredentials (fetches i) (fst entry) (snd entry)
             = Normal res.
Proof.
  intros Hperm. unfold validateAllCredentials, entries in *.
  set (promises :=
         imap (fun i entry =>
                 validateCredentials (fetches i) (fst entry) (snd entry))
              credentialsMap).
  destruct (all_normal_values promises) as [rs Hrs].
  { intros p Hp. apply elem_of_lookup_imap in Hp as (i & entry & -> & _).
    destruct (validateCredentials_returns (fetches i) (fst entry) (snd entry))
      as (r & Hr & _).
    now exists r. }
  assert (Hlen : length rs = length credentialsMap).
  { rewrite <- (length_fmap Normal rs), <- Hrs. apply length_imap. }
  assert (Hat : forall i entry, credentialsMap !! i = Some entry ->
            exists res, rs !! i = Some res
              /\ validateCredentials (fetches i) (fst entry) (snd entry)
                 = Normal res).
  { intros i entry Hentry.
    assert (Hp : promises !! i
                 = Some (validateCredentials (fetches i) (fst entry) (snd entry)))
      by (unfold promises; now rewrite list_lookup_imap, Hentry).
    rewrite Hrs, list_lookup_fmap in Hp.
    destruct (rs !! i) as [res|]; [|discriminate].
    injection Hp as Hp. now exists res. }
  exists rs. split; [|split; [exact Hlen | split; [|exact Hat]]].
  - rewrite Hrs. apply promise_all_fulfilled. now rewrite Hlen.
  - unfold keys. apply list_eq. intros i.
    change (List.map name rs) with (name <$> rs).
    change (List.map fst credentialsMap) with (fst <$> credentialsMap).
    rewrite !list_lookup_fmap.
    destruct (credentialsMap !! i) as [entry|] eqn:Hentry.
    + destruct (Hat i entry Hentry) as (res & -> & Hres).
      destruct (validateCredentials_returns (fetches i) (fst entry) (snd entry))
        as (res' & Hres' & Hname).
      simpl. congruence.
    + apply lookup_ge_None in Hentry. rewrite <- Hlen in Hentry.
      apply lookup_ge_None in Hentry. now rewrite Hentry.
Qed.

Lemma validateAllCredentials_in_order_witness :
  exists results,
    validateAllCredentials
      (fun i _ => if Nat.eqb i 0 then Fails (ErrorObj "connect ETIMEDOUT")
                  else Responds {| status := 401; body := BodyThrows NotAnError |})
      [1; 0]
      [("a", {| url := "https://a.example.org"; token := "x" |});
       ("b", {| url := "https://b.example.org"; token := "y" |})]
    = Some (Normal results)
    /\ List.map name results = ["a"; "b"].
Proof.
  destruct (validateAllCredentials_in_order
              (fun i _ => if Nat.eqb i 0 then Fails (ErrorObj "connect ETIMEDOUT")
                          else Responds {| status := 401;
                                           body := BodyThrows NotAnError |})
              [1; 0]
              [("a", {| url := "https://a.example.org"; token := "x" |});
               ("b", {| url := "https://b.example.org"; token := "y" |})])
    as (results & Hall & _ & Hnames & _).
  - simpl. apply perm_swap.
  - exists results. split; [exact Hall | exact Hnames].
Defined.

End ValidatorFacts.

(* ===================================================================== *)
(** * More facts about own properties and strings                         *)
(* ===================================================================== *)

Module JsMore.

Import Js.
Import JsFacts.

Section OwnPropertyMore.
Context {V : Type}.
Implicit Types (k : string) (v : V) (o : list (string * V)).

(** Writing the value a property already holds changes nothing. *)
Lemma replace_own_same k v o :
  get_own k o = Some v -> replace_own k v o = o.
Proof.
  induction o as [|[k' v'] t IH]; simpl; [reflexivity|].
  destruct (String.eqb k k').
  - now intros [= ->].
  - intros H. now rewrite IH.
Qed.

Lemma define_own_twice k v o :
  define_own k v (define_own k v o) = define_own k v o.
Proof.
  unfold define_own at 1.
  assert (Hget : get_own k (define_own k v o) = Some v)
    by apply get_own_define_own_eq.
  unfold has_own. rewrite Hget. now apply replace_own_same.
Qed.

Lemma set_twice k v o : set k v (set k v o) = set k v o.
Proof.
  unfold set.
  destruct (String.eqb k "__proto__" && negb (has_own k o)) eqn:E;
    [now rewrite E|].
  destruct (String.eqb k "__proto__"
            && negb (has_own k (define_own k v o)));
    [reflexivity | apply define_own_twice].
Qed.

(** Deleting a property that was just created gives the object back. *)
Lemma delete_own_add_own k v o :
  get_own k o = None -> delete_own k (add_own k v o) = o.
Proof.
  unfold delete_own. induction o as [|[k' v'] t IH]; simpl.
  - now rewrite String.eqb_refl.
  - destruct (String.eqb k k') eqn:E; [discriminate|]. intros Hnone.
    destruct (key_before k k'); simpl.
    + rewrite String.eqb_refl, E. simpl. f_equal.
      now apply (delete_own_absent k t).
    + rewrite E. simpl. f_equal. now apply IH.
Qed.

Lemma length_delete_own k o :
  List.NoDup (keys o) -> has_own k o = true ->
  S (length (delete_own k o)) = length o.
Proof.
  unfold delete_own, has_own.
  induction o as [|[k' v'] t IH]; simpl; [discriminate|].
  intros Hnd. inversion Hnd as [|? ? Hk' Ht]; subst.
  destruct (String.eqb_spec k k') as [->|Hne]; simpl.
  - intros _. f_equal.
    assert (Habsent : get_own k' t = None).
    { apply has_own_false. destruct (has_own k' t) eqn:E; [|reflexivity].
      apply in_keys_has_own in E. contradiction. }
    pose proof (delete_own_absent k' t Habsent) as Hsame.
    unfold delete_own in Hsame. now rewrite Hsame.
  - intros H. f_equal. now apply IH.
Qed.

(** A key of the list reads as an own property. *)
Lemma get_key k o :
  In k (keys o) -> exists v, get k o = Own v /\ get_own k o = Some v.
Proof.
  intros Hin. apply in_keys_has_own, has_own_true in Hin as [v Hv].
  exists v. unfold get. now rewrite Hv.
Qed.

End OwnPropertyMore.

(** ** Strings *)

Lemma string_take_drop (n : nat) (s : string) :
  (string_take n s ++ string_drop n s)%string = s.
Proof.
  revert s. induction n as [|n IH]; intros [|c t]; try reflexivity.
  change (String c (string_take n t ++ string_drop n t)%string = String c t).
  now rewrite IH.
Qed.

Lemma length_string_take (n : nat) (s : string) :
  String.length (string_take n s) = Nat.min n (String.length s).
Proof.
  revert s. induction n as [|n IH]; intros [|c t]; cbn; try reflexivity.
  now rewrite IH.
Qed.

Lemma length_string_drop (n : nat) (s : string) :
  String.length (string_drop n s) = String.length s - n.
Proof.
  revert s. induction n as [|n IH]; intros [|c t]; cbn; try reflexivity.
  - apply IH.
Qed.

Lemma length_append (s t : string) :
  String.length (s ++ t)%string = String.length s + String.length t.
Proof.
  induction s as [|c s IH]; [reflexivity|].
  change (S (String.length (s ++ t)%string)
          = S (String.length s + String.length t)).
  now rewrite IH.
Qed.

Lemma string_drop_drop (n m : nat) (s : string) :
  string_drop n (string_drop m s) = string_drop (m + n) s.
Proof.
  revert s. induction m as [|m IH]; intros s; cbn; [reflexivity|].
  destruct s as [|c t]; [now destruct n | apply IH].
Qed.

Lemma array_includes_In (flag : string) (args : list string) :
  array_includes flag args = true <-> In flag args.
Proof.
  unfold array_includes. rewrite existsb_exists. split.
  - intros (x & Hx & Heq). apply String.eqb_eq in Heq. now subst.
  - intros Hin. exists flag. split; [assumption | apply String.eqb_refl].
Qed.

End JsMore.

(* ===================================================================== *)
(** * The credential store: how the operations compose                    *)
(* ===================================================================== *)

Module ConfigCompose.

Import Js.
Import JsFacts.
Import JsMore.
Import Config.

(** Adding the same credential set twice is the same as adding it
    once, for every name. *)
Theorem addCredentials_twice (name : string) (creds : Credentials)
  (config : Config) :
  step (step config (Add name creds)) (Add name creds)
  = step config (Add name creds).
Proof.
  unfold step, after, addCredentials. cbn [written active credentials].
  rewrite set_twice.
  destruct (Nat.eqb (length (keys (set name creds (credentials config)))) 1);
    reflexivity.
Qed.

(** Adding a credential set under a new name and removing it again
    gives the document back, when the document satisfies the invariant
    of [active]. *)
Theorem add_then_remove (name : string) (creds : Credentials)
  (config : Config) :
  active_ok config ->
  has_own name (credentials config) = false ->
  name <> "__proto__" ->
  step (step config (Add name creds)) (Remove name) = config.
Proof.
  intros Hok Hfresh Hname. destruct config as [a cs]. simpl in *.
  unfold step, after, addCredentials. cbn [written active credentials].
  rewrite set_defines by (now left).
  unfold define_own. rewrite Hfresh.
  unfold removeCredentials. cbn [written active credentials].
  rewrite get_truthy. unfold has_own at 1.
  rewrite get_own_add_own_eq by (now apply has_own_false). simpl.
  rewrite delete_own_add_own by (now apply has_own_false).
  unfold keys. rewrite length_map, length_add_own.
  unfold active_ok in Hok. simpl in Hok.
  destruct cs as [|entry rest].
  - simpl. unfold is_active. simpl. rewrite String.eqb_refl. simpl.
    destruct a as [a|]; [contradiction | reflexivity].
  - cbn [length Nat.eqb]. unfold is_active. cbn [active].
    destruct a as [a|]; [|reflexivity].
    destruct (String.eqb_spec a name) as [->|Hne]; [|reflexivity].
    apply in_keys_has_own in Hok. congruence.
Qed.

Lemma add_then_remove_witness :
  step (step {| active := Some "a";
                credentials := [("a", {| url := "u"; token := "t" |})] |}
             (Add "b" {| url := "v"; token := "s" |}))
       (Remove "b")
  = {| active := Some "a";
       credentials := [("a", {| url := "u"; token := "t" |})] |}.
Proof.
  apply (add_then_remove "b" {| url := "v"; token := "s" |}
           {| active := Some "a";
              credentials := [("a", {| url := "u"; token := "t" |})] |}).
  - simpl. now left.
  - reflexivity.
  - discriminate.
Defined.

(** [hasCredentials(name)] is true exactly when [getCredentials(name)]
    is not null. *)
Theorem hasCredentials_getCredentials (name : string) (config : Config) :
  hasCredentials name config = true <-> getCredentials name config <> None.
Proof.
  unfold hasCredentials, has_property, getCredentials.
  rewrite get_truthy.
  destruct (has_own name (credentials config) || inherited name);
    split; congruence.
Qed.

(** Activating a stored name and asking for the active credentials
    returns that name with its stored credentials, unless the name is
    the empty string, for which the answer is null. *)
Theorem setActive_then_getActiveCredentials (name : string) (c : Credentials)
  (config : Config) :
  get_own name (credentials config) = Some c ->
  result (setActive name config) = true
  /\ getActiveCredentials (step config (SetActive name))
     = if String.eqb name "" then None else Some (name, Own c).
Proof.
  intros Hget.
  assert (Hown : has_own name (credentials config) = true)
    by (apply has_own_true; eauto).
  unfold step, after. rewrite (ConfigFacts.setActive_stored name config Hown).
  split; [reflexivity|]. cbn [written].
  unfold getActiveCredentials. cbn [active credentials].
  unfold get. rewrite Hget. cbn [truthy negb]. rewrite orb_false_r.
  destruct name; reflexivity.
Qed.

Lemma setActive_then_getActiveCredentials_witness :
  getActiveCredentials
    (step {| active := None;
             credentials := [("a", {| url := "u"; token := "t" |})] |}
          (SetActive "a"))
  = Some ("a", Own {| url := "u"; token := "t" |}).
Proof.
  apply (setActive_then_getActiveCredentials "a" {| url := "u"; token := "t" |}
           {| active := None;
              credentials := [("a", {| url := "u"; token := "t" |})] |}).
  reflexivity.
Defined.

(** The names after [addCredentials]: an existing name keeps the list
    of names as it is, order included; a new name other than
    [__proto__] is inserted into the list, the other names keeping
    their order. *)
Theorem addCredentials_names (name : string) (creds : Credentials)
  (config : Config) :
  name <> "__proto__" ->
  let names := keys (credentials config) in
  let names' := keys (credentials (step config (Add name creds))) in
  (has_own name (credentials config) = true -> names' = names)
  /\ (has_own name (credentials config) = false ->
      exists before after0,
        names = before ++ after0 /\ names' = before ++ name :: after0).
Proof.
  intros Hname. cbv zeta. unfold step, after, addCredentials.
  cbn [written credentials]. rewrite set_defines by (now left).
  unfold define_own. split; intros Hown; rewrite Hown.
  - apply keys_replace_own.
  - clear Hown. unfold keys.
    induction (credentials config) as [|[k' v'] t (l1 & l2 & H1 & H2)]; simpl.
    + now exists [], [].
    + destruct (key_before name k'); simpl.
      * now exists [], (k' :: List.map fst t).
      * exists (k' :: l1), l2. simpl. now rewrite <- H1, H2.
Qed.

Lemma addCredentials_names_witness :
  keys (credentials
          (step {| active := Some "b";
                   credentials := [("b", {| url := "u"; token := "t" |})] |}
                (Add "b" {| url := "v"; token := "s" |})))
  = ["b"].
Proof.
  destruct (addCredentials_names "b" {| url := "v"; token := "s" |}
              {| active := Some "b";
                 credentials := [("b", {| url := "u"; token := "t" |})] |})
    as [Hkept _].
  - discriminate.
  - apply Hkept. reflexivity.
Defined.

(** The names after [removeCredentials] of a stored name: the other
    names, in their order; one name fewer when no name is listed
    twice. *)
Theorem removeCredentials_names (name : string) (config : Config) :
  has_own name (credentials config) = true ->
  let names := keys (credentials config) in
  let names' := keys (credentials (step config (Remove name))) in
  names' = List.filter (fun k => negb (String.eqb name k)) names
  /\ ~ In name names'
  /\ (List.NoDup names -> S (length names') = length names).
Proof.
  intros Hown. cbv zeta. unfold step, after, removeCredentials.
  rewrite get_truthy, Hown. cbn [orb negb written credentials].
  split; [apply keys_delete_own|]. split.
  - rewrite in_keys_delete_own. tauto.
  - intros Hnd. unfold keys. rewrite !length_map.
    now apply length_delete_own.
Qed.

Lemma removeCredentials_names_witness :
  keys (credentials
          (step {| active := Some "a";
                   credentials := [("a", {| url := "u"; token := "t" |});
                                   ("b", {| url := "v"; token := "s" |})] |}
                (Remove "a")))
  = ["b"].
Proof.
  destruct (removeCredentials_names "a"
              {| active := Some "a";
                 credentials := [("a", {| url := "u"; token := "t" |});
                                 ("b", {| url := "v"; token := "s" |})] |})
    as [Hnames _].
  - reflexivity.
  - exact Hnames.
Defined.

(** Removing a stored name a second time returns false and writes
    nothing, when the name is not a member of [Object.prototype]. *)
Theorem removeCredentials_twice (name : string) (config : Config) :
  inherited name = false ->
  has_own name (credentials config) = true ->
  result (removeCredentials name config) = true
  /\ removeCredentials name (step config (Remove name))
     = {| result := false; written := None |}.
Proof.
  intros Hplain Hown. unfold step, after.
  destruct (ConfigFacts.removeCredentials_stored name config Hown)
    as (config' & -> & _ & Hgone & _).
  split; [reflexivity|]. cbn [written].
  now apply ConfigFacts.removeCredentials_absent_plain.
Qed.

Lemma removeCredentials_twice_witness :
  removeCredentials "a"
    (step {| active := Some "a";
             credentials := [("a", {| url := "u"; token := "t" |})] |}
          (Remove "a"))
  = {| result := false; written := None |}.
Proof.
  apply (removeCredentials_twice "a"
           {| active := Some "a";
              credentials := [("a", {| url := "u"; token := "t" |})] |});
    reflexivity.
Defined.

End ConfigCompose.

(* ===================================================================== *)
(** * The library interface: properties                                   *)
(* ===================================================================== *)

Module LibFacts.

Import Js.
Import JsFacts.
Import JsMore.
Import Config.
Import Lib.

(** ** Helpers *)

Lemma getByName_get (name : string) (config : Config) :
  getByName name config
  = if truthy (get name (credentials config))
    then Some (saved_selection name (get name (credentials config)))
    else None.
Proof.
  unfold getByName, getCredentials.
  now destruct (truthy (get name (credentials config))).
Qed.

Lemma getByName_stored (name : string) (c : Credentials) (config : Config) :
  get_own name (credentials config) = Some c ->
  getByName name config = Some (stored_selection name c).
Proof. intros H. rewrite getByName_get. unfold get. now rewrite H. Qed.

Lemma getByName_absent (name : string) (config : Config) :
  inherited name = false ->
  get_own name (credentials config) = None ->
  getByName name config = None.
Proof.
  intros Hplain H. rewrite getByName_get. unfold get. now rewrite H, Hplain.
Qed.

Lemma get_set_ne {V : Type} (k k' : string) (v : V) (o : list (string * V)) :
  k <> k' -> get k' (set k v o) = get k' o.
Proof.
  intros Hne. unfold get, set.
  destruct (String.eqb k "__proto__" && negb (has_own k o)); [reflexivity|].
  now rewrite get_own_define_own_ne.
Qed.

Lemma get_delete_ne {V : Type} (k k' : string) (o : list (string * V)) :
  k <> k' -> get k' (delete_own k o) = get k' o.
Proof. intros Hne. unfold get. now rewrite get_own_delete_own_ne. Qed.

(** ** Lookup by name *)

(** What was added can be fetched by name: after
    [addCredentials(name, creds)], for a name other than [__proto__],
    [getByName(name)] returns the name with the url and the token
    added, [hasCredentials(name)] is true and [listSaved()] lists the
    name. *)
Theorem getByName_after_add (name : string) (creds : Credentials)
  (config : Config) :
  name <> "__proto__" ->
  getByName name (step config (Add name creds))
  = Some (stored_selection name creds)
  /\ hasCredentials name (step config (Add name creds)) = true
  /\ In name (listSaved (step config (Add name creds))).
Proof.
  intros Hname.
  assert (Hget : get_own name (credentials (step config (Add name creds)))
                 = Some creds).
  { unfold step, after, addCredentials. cbn [written credentials].
    rewrite set_defines by (now left). apply get_own_define_own_eq. }
  assert (Hown : has_own name (credentials (step config (Add name creds)))
                 = true) by (apply has_own_true; eauto).
  split; [now apply getByName_stored|]. split.
  - unfold hasCredentials, has_property. now rewrite Hown.
  - unfold listSaved, getAllCredentials. now apply in_keys_has_own.
Qed.

Lemma getByName_after_add_witness :
  getByName "prod"
    (step getDefaultConfig
          (Add "prod" {| url := "https://cms.example.org"; token := "t" |}))
  = Some {| sel_name := "prod"; sel_url := Some "https://cms.example.org";
            sel_token := Some "t"; source := saved |}.
Proof.
  apply (getByName_after_add "prod"
           {| url := "https://cms.example.org"; token := "t" |}
           getDefaultConfig).
  discriminate.
Defined.

(** What was removed is gone: after [removeCredentials(name)] of a
    stored name that is not a member of [Object.prototype],
    [getByName(name)] is null, [hasCredentials(name)] is false and
    [listSaved()] no longer lists the name. *)
Theorem getByName_after_remove (name : string) (config : Config) :
  inherited name = false ->
  has_own name (credentials config) = true ->
  getByName name (step config (Remove name)) = None
  /\ hasCredentials name (step config (Remove name)) = false
  /\ ~ In name (listSaved (step config (Remove name))).
Proof.
  intros Hplain Hown.
  assert (Hget : get_own name (credentials (step config (Remove name)))
                 = None).
  { unfold step, after, removeCredentials. rewrite get_truthy, Hown.
    cbn [orb negb written credentials]. apply get_own_delete_own_eq. }
  split; [now apply getByName_absent|]. split.
  - unfold hasCredentials, has_property.
    apply has_own_false in Hget. now rewrite Hget, Hplain.
  - unfold listSaved, getAllCredentials. rewrite in_keys_has_own.
    apply has_own_false in Hget. congruence.
Qed.

Lemma getByName_after_remove_witness :
  getByName "prod"
    (step {| active := Some "prod";
             credentials := [("prod", {| url := "u"; token := "t" |})] |}
          (Remove "prod"))
  = None.
Proof.
  apply (getByName_after_remove "prod"
           {| active := Some "prod";
              credentials := [("prod", {| url := "u"; token := "t" |})] |});
    reflexivity.
Defined.

(** A call about one name leaves every other name as it was: whatever
    the call ([addCredentials], [removeCredentials] or [setActive]) and
    whatever its name, [getByName(k)] answers the same before and after
    for every other name [k]. *)
Theorem getByName_other_names (op : Op) (k : string) (config : Config) :
  k <> name_of op ->
  getByName k (step config op) = getByName k config.
Proof.
  intros Hne. rewrite !getByName_get.
  assert (Hget : get k (credentials (step config op))
                 = get k (credentials config)).
  { destruct op as [name creds | name | name]; simpl in Hne;
      unfold step, after.
    - unfold addCredentials. cbn [written credentials].
      apply get_set_ne. congruence.
    - unfold removeCredentials.
      destruct (negb (truthy (get name (credentials config))));
        cbn [written credentials]; [reflexivity|].
      apply get_delete_ne. congruence.
    - unfold setActive.
      destruct (negb (truthy (get name (credentials config))));
        reflexivity. }
  now rewrite Hget.
Qed.

Lemma getByName_other_names_witness :
  getByName "a"
    (step {| active := Some "a";
             credentials := [("a", {| url := "u"; token := "t" |});
                             ("b", {| url := "v"; token := "s" |})] |}
          (Remove "b"))
  = Some {| sel_name := "a"; sel_url := Some "u"; sel_token := Some "t";
            source := saved |}.
Proof.
  rewrite (getByName_other_names (Remove "b") "a"
             {| active := Some "a";
                credentials := [("a", {| url := "u"; token := "t" |});
                                ("b", {| url := "v"; token := "s" |})] |}).
  - reflexivity.
  - discriminate.
Defined.

(** ** The active selection *)

(** [getActive()] and [getByName] agree: a selection that [getActive]
    returns is the one [getByName] returns for its name. *)
Theorem getActive_getByName (s : CredentialSelection) (config : Config) :
  getActive config = Some s -> getByName (sel_name s) config = Some s.
Proof.
  unfold getActive, getActiveCredentials.
  destruct (active config) as [a|]; [|discriminate].
  destruct (negb (truthy_name (Some a))); [discriminate|].
  cbn [orb]. rewrite getByName_get.
  destruct (truthy (get a (credentials config))) eqn:E; cbn [negb];
    [|discriminate].
  intros [= <-]. cbn [sel_name saved_selection]. now rewrite E.
Qed.

Lemma getActive_getByName_witness :
  getByName "a"
    {| active := Some "a";
       credentials := [("a", {| url := "u"; token := "t" |})] |}
  = Some {| sel_name := "a"; sel_url := Some "u"; sel_token := Some "t";
            source := saved |}.
Proof.
  apply (getActive_getByName
           {| sel_name := "a"; sel_url := Some "u"; sel_token := Some "t";
              source := saved |}
           {| active := Some "a";
              credentials := [("a", {| url := "u"; token := "t" |})] |}).
  reflexivity.
Defined.

(** On a document that satisfies the invariant of [active],
    [getActive()] returns the active name with its stored url and
    token when that name is not the empty string, and null when
    [active] is null or the empty string. *)
Theorem getActive_stored (config : Config) :
  active_ok config ->
  match active config with
  | None => getActive config = None
  | Some a =>
      if String.eqb a "" then getActive config = None
      else exists c,
          get_own a (credentials config) = Some c
          /\ getActive config = Some (stored_selection a c)
  end.
Proof.
  unfold active_ok, getActive, getActiveCredentials.
  destruct (active config) as [a|]; [|reflexivity].
  intros Hin. destruct (get_key a (credentials config) Hin) as (c & Hget & Hown).
  rewrite Hget. cbn [truthy negb]. rewrite orb_false_r.
  destruct a as [|ch rest]; [reflexivity|].
  cbn [truthy_name negb String.eqb]. exists c. split; [assumption|reflexivity].
Qed.

Lemma getActive_stored_witness :
  exists c,
    get_own "a" [("a", {| url := "u"; token := "t" |})] = Some c
    /\ getActive {| active := Some "a";
                    credentials := [("a", {| url := "u"; token := "t" |})] |}
       = Some (stored_selection "a" c).
Proof.
  apply (getActive_stored
           {| active := Some "a";
              credentials := [("a", {| url := "u"; token := "t" |})] |}).
  simpl. now left.
Defined.

(** ** [promptForCredentials] *)

(** Choosing a saved name returns that name with its stored url and
    token, marked as saved, and writes nothing (when the active set is
    not asked for, and the name is not [__manual__]). *)
Theorem promptForCredentials_saved (options : PromptOptions)
  (selected : string) (answers : ManualAnswers) (config : Config) :
  default false (useActiveIfAvailable options) = false ->
  In selected (keys (credentials config)) ->
  selected <> "__manual__" ->
  exists c,
    get_own selected (credentials config) = Some c
    /\ promptForCredentials options selected answers config
       = Normal {| result := stored_selection selected c; written := None |}.
Proof.
  intros Huse Hin Hmanual.
  destruct (get_key selected (credentials config) Hin) as (c & Hget & Hown).
  exists c. split; [assumption|].
  unfold promptForCredentials. rewrite Huse. unfold getAllCredentials.
  destruct (keys (credentials config)) as [|k0 rest] eqn:Hkeys;
    [contradiction|].
  cbn [length Nat.eqb andb]. apply String.eqb_neq in Hmanual.
  rewrite Hmanual, Hget. reflexivity.
Qed.

Lemma promptForCredentials_saved_witness :
  exists c,
    get_own "a" [("a", {| url := "u"; token := "t" |})] = Some c
    /\ promptForCredentials
         {| allowManual := None; saveManual := None;
            useActiveIfAvailable := None |}
         "a"
         {| answer_url := ""; answer_token := ""; shouldSave := false;
            credName := ""; overwrite := false |}
         {| active := None;
            credentials := [("a", {| url := "u"; token := "t" |})] |}
       = Normal {| result := stored_selection "a" c; written := None |}.
Proof.
  apply (promptForCredentials_saved
           {| allowManual := None; saveManual := None;
              useActiveIfAvailable := None |}
           "a"
           {| answer_url := ""; answer_token := ""; shouldSave := false;
              credName := ""; overwrite := false |}
           {| active := None;
              credentials := [("a", {| url := "u"; token := "t" |})] |}).
  - reflexivity.
  - simpl. now left.
  - discriminate.
Defined.

Lemma promptManualEntry_written (save : bool) (answers : ManualAnswers)
  (config config' : Config) :
  written (promptManualEntry save answers config) = Some config' ->
  save = true
  /\ shouldSave answers = true
  /\ (hasCredentials (credName answers) config = true ->
      overwrite answers = true)
  /\ config' = step config
                 (Add (credName answers)
                      {| url := answer_url answers;
                         token := answer_token answers |}).
Proof.
  unfold promptManualEntry, step, after.
  destruct save, (shouldSave answers); cbn [andb written]; try discriminate.
  destruct (hasCredentials (credName answers) config).
  - destruct (overwrite answers); cbn [written]; [|discriminate].
    intros [= <-]. repeat split; reflexivity.
  - intros [= <-]. repeat split; try reflexivity. discriminate.
Qed.

(** [promptForCredentials] writes only through manual entry: when it
    writes, saving was allowed and confirmed, an existing name was
    overwritten only after confirmation, the document written is the
    one [addCredentials] makes for the name, url and token entered,
    and the selection returned holds that url and token. *)
Theorem promptForCredentials_written (options : PromptOptions)
  (selected : string) (answers : ManualAnswers) (config config' : Config)
  (call : Call CredentialSelection) :
  promptForCredentials options selected answers config = Normal call ->
  written call = Some config' ->
  default true (saveManual options) = true
  /\ shouldSave answers = true
  /\ (hasCredentials (credName answers) config = true ->
      overwrite answers = true)
  /\ config' = step config
                 (Add (credName answers)
                      {| url := answer_url answers;
                         token := answer_token answers |})
  /\ result call = manual_selection (credName answers) answers.
Proof.
  unfold promptForCredentials. intros Hcall Hwritten.
  assert (Hmanual : call = promptManualEntry
                             (default true (saveManual options))
                             answers config).
  { destruct (default false (useActiveIfAvailable options)).
    - destruct (getActiveCredentials config) as [[n r]|].
      + injection Hcall as <-. discriminate.
      + destruct (Nat.eqb _ 0 && default true (allowManual options));
          [now injection Hcall|].
        destruct (Nat.eqb _ 0); [discriminate|].
        destruct (String.eqb selected "__manual__"); [now injection Hcall|].
        destruct (get selected (getAllCredentials config));
          try discriminate; injection Hcall as <-; discriminate.
    - destruct (Nat.eqb _ 0 && default true (allowManual options));
        [now injection Hcall|].
      destruct (Nat.eqb _ 0); [discriminate|].
      destruct (String.eqb selected "__manual__"); [now injection Hcall|].
      destruct (get selected (getAllCredentials config));
        try discriminate; injection Hcall as <-; discriminate. }
  subst call.
  destruct (promptManualEntry_written _ _ _ _ Hwritten)
    as (Hsave & Hshould & Hover & Hconfig).
  repeat split; try assumption.
  unfold promptManualEntry. rewrite Hsave, Hshould. cbn [andb].
  destruct (hasCredentials (credName answers) config);
    [destruct (overwrite answers)|]; reflexivity.
Qed.

Lemma promptForCredentials_written_witness :
  let answers := {| answer_url := "https://cms.example.org";
                    answer_token := "t"; shouldSave := true;
                    credName := "cms"; overwrite := false |} in
  default true None = true
  /\ shouldSave answers = true
  /\ (hasCredentials "cms" getDefaultConfig = true ->
      overwrite answers = true)
  /\ {| active := Some "cms";
        credentials := [("cms", {| url := "https://cms.example.org";
                                   token := "t" |})] |}
     = step getDefaultConfig
         (Add "cms" {| url := "https://cms.example.org"; token := "t" |})
  /\ manual_selection "cms" answers = manual_selection "cms" answers.
Proof.
  cbv zeta.
  apply (promptForCredentials_written
           {| allowManual := None; saveManual := None;
              useActiveIfAvailable := None |}
           ""
           {| answer_url := "https://cms.example.org";
              answer_token := "t"; shouldSave := true;
              credName := "cms"; overwrite := false |}
           getDefaultConfig
           {| active := Some "cms";
              credentials := [("cms", {| url := "https://cms.example.org";
                                         token := "t" |})] |}
           {| result :=
                manual_selection "cms"
                  {| answer_url := "https://cms.example.org";
                     answer_token := "t"; shouldSave := true;
                     credName := "cms"; overwrite := false |};
              written :=
                Some {| active := Some "cms";
                        credentials :=
                          [("cms", {| url := "https://cms.example.org";
                                      token := "t" |})] |} |});
    reflexivity.
Defined.



End LibFacts.

(* ===================================================================== *)
(** * The command line: properties                                        *)
(* ===================================================================== *)

Module CliFacts.

Import Js.
Import JsFacts.
Import JsMore.
Import Config.
Import Lib.
Import Cli.

(** ** [maskToken] *)

(** A token of at most 12 characters is shown as four stars; a longer
    one as its first four characters, three dots and its last four, so
    that at least five characters stay hidden; the mask is never longer
    than 11 characters. *)
Theorem maskToken_hides (token : string) :
  (String.length token <= 12 -> maskToken token = "****")
  /\ (12 < String.length token ->
      exists head hidden tail,
        token = (head ++ hidden ++ tail)%string
        /\ String.length head = 4
        /\ String.length tail = 4
        /\ 5 <= String.length hidden
        /\ maskToken token = (head ++ "..." ++ tail)%string)
  /\ String.length (maskToken token) <= 11.
Proof.
  unfold maskToken, slice_head, slice_tail.
  destruct (Nat.leb (String.length token) 12) eqn:E.
  - apply Nat.leb_le in E. split; [reflexivity|].
    split; [lia | cbn; lia].
  - apply Nat.leb_gt in E. split; [lia|].
    set (n := String.length token) in *.
    assert (Hhead : String.length (string_take 4 token) = 4)
      by (rewrite length_string_take; fold n; lia).
    assert (Htail : String.length (string_drop (n - 4) token) = 4)
      by (rewrite length_string_drop; fold n; lia).
    split.
    + intros _.
      exists (string_take 4 token),
             (string_take (n - 8) (string_drop 4 token)),
             (string_drop (n - 4) token).
      split; [|split; [exact Hhead | split; [exact Htail | split]]].
      * replace (n - 4) with (4 + (n - 8)) by lia.
        rewrite <- string_drop_drop.
        now rewrite !string_take_drop.
      * rewrite length_string_take, length_string_drop. fold n. lia.
      * reflexivity.
    + rewrite !length_append, Hhead, Htail. cbn. lia.
Qed.

(** ** Names entered at a prompt *)

Lemma name_char_not_white_space (c : ascii) :
  name_char c = true -> is_white_space c = false.
Proof.
  destruct c as [[] [] [] [] [] [] [] []]; vm_compute; congruence.
Qed.

(** A name is accepted exactly when it is not empty and consists of
    letters, digits, underscores and hyphens only. *)
Theorem validate_name_accepted (input : string) :
  validate_name input = Accepted
  <-> input <> "" /\ all_chars name_char input = true.
Proof.
  unfold validate_name, name_pattern, trims_to_empty.
  destruct input as [|c rest].
  - cbn. split; [discriminate | intros [H _]; congruence].
  - cbn [String.eqb negb andb all_chars].
    destruct (name_char c) eqn:Hc; cbn [andb].
    + rewrite (name_char_not_white_space c Hc). cbn [andb].
      destruct (all_chars name_char rest); cbn [negb].
      * split; [intros _; split; [discriminate | reflexivity] | reflexivity].
      * split; [discriminate | intros [_ H]; discriminate].
    + destruct (is_white_space c && all_chars is_white_space rest);
        split; try discriminate; intros [_ H]; discriminate.
Qed.

(** ** Command-line arguments *)

(** With [--json] or [-j] among the arguments, on a document that
    satisfies the invariant of [active]: when [active] is null or the
    empty string the process exits with code 1 after one error line;
    otherwise exactly one line is printed, the JSON object with the
    active name and its stored url and token.  [--help] changes
    nothing. *)
Theorem handleCliArgs_json (args : list string) (config : Config) :
  In "--json" args \/ In "-j" args ->
  active_ok config ->
  match active config with
  | None =>
      handleCliArgs args config
      = Exited 1 [ErrorLine "No active credentials set"]
  | Some a =>
      if String.eqb a "" then
        handleCliArgs args config
        = Exited 1 [ErrorLine "No active credentials set"]
      else
        exists c,
          get_own a (credentials config) = Some c
          /\ handleCliArgs args config
             = Returned true
                 [JsonLine (JObj [("name", JStr a); ("url", JStr (url c));
                                  ("token", JStr (token c))])]
  end.
Proof.
  intros Hflag Hok. unfold handleCliArgs.
  assert (Hjson : array_includes "--json" args || array_includes "-j" args
                  = true).
  { apply orb_true_iff. rewrite !array_includes_In. exact Hflag. }
  rewrite Hjson. unfold outputJson, getActiveCredentials.
  unfold active_ok in Hok.
  destruct (active config) as [a|]; [|reflexivity].
  destruct (get_key a (credentials config) Hok) as (c & Hget & Hown).
  rewrite Hget. cbn [truthy negb]. rewrite orb_false_r.
  destruct a as [|ch rest]; [reflexivity|].
  cbn [truthy_name negb String.eqb]. exists c. split; [assumption|reflexivity].
Qed.

Lemma handleCliArgs_json_witness :
  exists c,
    get_own "a" [("a", {| url := "u"; token := "t" |})] = Some c
    /\ handleCliArgs ["--help"; "-j"]
         {| active := Some "a";
            credentials := [("a", {| url := "u"; token := "t" |})] |}
       = Returned true
           [JsonLine (JObj [("name", JStr "a"); ("url", JStr (url c));
                            ("token", JStr (token c))])].
Proof.
  apply (handleCliArgs_json ["--help"; "-j"]
           {| active := Some "a";
              credentials := [("a", {| url := "u"; token := "t" |})] |}).
  - right. simpl. tauto.
  - simpl. now left.
Defined.

(** Without [--json] and [-j] among the arguments nothing of the
    document is printed and the process does not exit: the help text is
    printed and true returned when [--help] or [-h] is given, and
    otherwise nothing is printed and false returned, whatever the
    document. *)
Theorem handleCliArgs_no_json (args : list string) (config : Config) :
  ~ In "--json" args -> ~ In "-j" args ->
  (In "--help" args \/ In "-h" args ->
   handleCliArgs args config = Returned true [HelpText])
  /\ (~ In "--help" args -> ~ In "-h" args ->
      handleCliArgs args config = Returned false []).
Proof.
  intros Hjson Hj. unfold handleCliArgs.
  rewrite <- array_includes_In in Hjson, Hj.
  apply not_true_is_false in Hjson, Hj. rewrite Hjson, Hj. cbn [orb].
  split.
  - intros Hhelp.
    assert (H : array_includes "--help" args || array_includes "-h" args
                = true)
      by (apply orb_true_iff; rewrite !array_includes_In; exact Hhelp).
    now rewrite H.
  - intros Hhelp Hh. rewrite <- array_includes_In in Hhelp, Hh.
    apply not_true_is_false in Hhelp, Hh. now rewrite Hhelp, Hh.
Qed.

Lemma handleCliArgs_no_json_witness :
  handleCliArgs ["--verbose"] getDefaultConfig = Returned false [].
Proof.
  destruct (handleCliArgs_no_json ["--verbose"] getDefaultConfig)
    as [_ Hnone].
  - simpl. intuition discriminate.
  - simpl. intuition discriminate.
  - apply Hnone; simpl; intuition discriminate.
Defined.

(** ** The menu actions *)

Lemma handleUse_stored (selected : string) (config : Config) :
  In selected (keys (credentials config)) ->
  handleUse selected config
  = if String.eqb selected "__cancel__" || String.eqb selected ""
    then {| result := tt; written := None |}
    else {| result := tt;
            written := Some {| active := Some selected;
                               credentials := credentials config |} |}.
Proof.
  intros Hin. unfold handleUse, selectCredentials, getAllCredentials.
  destruct (keys (credentials config)) as [|k0 rest] eqn:Hkeys;
    [contradiction|].
  cbn [length Nat.eqb].
  destruct (String.eqb selected "__cancel__"); [reflexivity|].
  cbn [orb]. destruct selected as [|ch tail]; [reflexivity|].
  cbn [truthy_name negb String.eqb].
  rewrite <- Hkeys in Hin. apply in_keys_has_own in Hin.
  now rewrite (ConfigFacts.setActive_stored _ config Hin).
Qed.

(** Choosing a saved name in the switch menu makes it the active name
    and leaves the credential sets as they are; a set saved under the
    name [__cancel__] or the empty name cannot be chosen: nothing is
    written. *)
Theorem handleUse_activates (selected : string) (config : Config) :
  In selected (keys (credentials config)) ->
  handleUse selected config
  = if String.eqb selected "__cancel__" || String.eqb selected ""
    then {| result := tt; written := None |}
    else {| result := tt;
            written := Some {| active := Some selected;
                               credentials := credentials config |} |}.
Proof. exact (handleUse_stored selected config). Qed.

Lemma handleUse_activates_witness :
  handleUse "b"
    {| active := Some "a";
       credentials := [("a", {| url := "u"; token := "t" |});
                       ("b", {| url := "v"; token := "s" |})] |}
  = {| result := tt;
       written :=
         Some {| active := Some "b";
                 credentials := [("a", {| url := "u"; token := "t" |});
                                 ("b", {| url := "v"; token := "s" |})] |} |}.
Proof.
  apply (handleUse_activates "b"
           {| active := Some "a";
              credentials := [("a", {| url := "u"; token := "t" |});
                              ("b", {| url := "v"; token := "s" |})] |}).
  simpl. tauto.
Defined.

(** The remove menu writes only after confirmation, and then what
    [removeCredentials] writes for the chosen name. *)
Theorem handleRemove_written (selected : string) (confirm : bool)
  (config config' : Config) :
  written (handleRemove selected confirm config) = Some config' ->
  confirm = true
  /\ selected <> "__cancel__"
  /\ written (removeCredentials selected config) = Some config'.
Proof.
  unfold handleRemove, selectCredentials.
  destruct (Nat.eqb _ 0); [discriminate|].
  destruct (String.eqb_spec selected "__cancel__") as [->|Hne];
    [discriminate|].
  destruct (negb (truthy_name (Some selected))); [discriminate|].
  destruct confirm; cbn [negb written]; [|discriminate].
  intros H. repeat split; assumption.
Qed.

Lemma handleRemove_written_witness :
  true = true
  /\ "a" <> "__cancel__"
  /\ written (removeCredentials "a"
                {| active := Some "a";
                   credentials := [("a", {| url := "u"; token := "t" |})] |})
     = Some getDefaultConfig.
Proof.
  apply (handleRemove_written "a" true
           {| active := Some "a";
              credentials := [("a", {| url := "u"; token := "t" |})] |}
           getDefaultConfig).
  reflexivity.
Defined.

(** The add action replaces a stored credential set only after
    confirmation: when it writes, either the name was not stored or the
    overwrite was confirmed, and what it writes is what
    [addCredentials] writes for the name, url and token entered. *)
Theorem handleAdd_written (answers : AddAnswers) (config config' : Config) :
  written (handleAdd answers config) = Some config' ->
  (has_own (add_name answers) (credentials config) = true ->
   add_overwrite answers = true)
  /\ config' = step config
                 (Add (add_name answers)
                      {| url := add_url answers;
                         token := add_token answers |}).
Proof.
  unfold handleAdd, hasCredentials, has_property, step, after.
  destruct (has_own (add_name answers) (credentials config)) eqn:Hown;
    cbn [orb andb].
  - destruct (add_overwrite answers); cbn [negb]; [|discriminate].
    intros H. rewrite H. split; reflexivity.
  - destruct (inherited (add_name answers) && negb (add_overwrite answers));
      [discriminate|].
    intros H. rewrite H. split; [discriminate | reflexivity].
Qed.

Lemma handleAdd_written_witness :
  (has_own "a" (credentials getDefaultConfig) = true -> false = true)
  /\ {| active := Some "a";
        credentials := [("a", {| url := "u"; token := "t" |})] |}
     = step getDefaultConfig (Add "a" {| url := "u"; token := "t" |}).
Proof.
  apply (handleAdd_written
           {| add_name := "a"; add_overwrite := false;
              add_url := "u"; add_token := "t" |}
           getDefaultConfig
           {| active := Some "a";
              credentials := [("a", {| url := "u"; token := "t" |})] |}).
  reflexivity.
Defined.

(** ** Sessions *)

Lemma active_ok_handle (config : Config) (a : Action) :
  active_ok config -> answer_ok config a -> active_ok (handle config a).
Proof.
  intros Hok Hanswer. destruct a as [answers | selected confirm | selected];
    simpl in *.
  - unfold handleAdd.
    destruct (hasCredentials (add_name answers) config
              && negb (add_overwrite answers)); [exact Hok|].
    apply (ConfigFacts.active_ok_step config (Add _ _) Hok Hanswer).
  - unfold handleRemove.
    destruct (selectCredentials selected config) as [name|]; [|exact Hok].
    destruct (negb (truthy_name (Some name))); [exact Hok|].
    destruct (negb confirm); [exact Hok|].
    apply (ConfigFacts.active_ok_step config (Remove name) Hok I).
  - unfold select_choices, getAllCredentials in Hanswer.
    destruct Hanswer as [Hnone|Hanswer].
    + unfold handleUse, selectCredentials, getAllCredentials.
      rewrite Hnone. exact Hok.
    + apply in_app_or in Hanswer as [Hin|[<-|[]]].
      * rewrite (handleUse_stored selected config Hin).
        destruct (String.eqb selected "__cancel__" || String.eqb selected "");
          [exact Hok|].
        unfold after, active_ok. simpl. exact Hin.
      * unfold handleUse, selectCredentials.
        destruct (Nat.eqb _ 0); exact Hok.
Qed.

(** Through the menu the invariant of [active] is kept: from a
    document that satisfies it, after every add, remove and switch
    action of a session, [active] is null or a saved name, provided no
    credential set is added under the name [__proto__] and every answer
    of a list prompt is one of its choices.  Names that are members of
    [Object.prototype] need no exception here: the menu passes saved
    names only to [setActive] and [removeCredentials]. *)
Theorem session_active_ok (config : Config) (actions : list Action) :
  active_ok config ->
  answers_ok config actions ->
  List.Forall active_ok (session config actions).
Proof.
  revert config. induction actions as [|a rest IH]; intros config Hok Hans.
  - constructor.
  - destruct Hans as [Ha Hrest]. simpl.
    pose proof (active_ok_handle config a Hok Ha) as Hnext.
    constructor; [exact Hnext | now apply IH].
Qed.

Lemma session_active_ok_witness :
  List.Forall active_ok
    (session getDefaultConfig
       [DoAdd {| add_name := "toString"; add_overwrite := true;
                 add_url := "u"; add_token := "t" |};
        DoAdd {| add_name := "b"; add_overwrite := false;
                 add_url := "v"; add_token := "s" |};
        DoUse "b";
        DoRemove "toString" true]).
Proof.
  apply (session_active_ok getDefaultConfig
           [DoAdd {| add_name := "toString"; add_overwrite := true;
                     add_url := "u"; add_token := "t" |};
            DoAdd {| add_name := "b"; add_overwrite := false;
                     add_url := "v"; add_token := "s" |};
            DoUse "b";
            DoRemove "toString" true]).
  - exact I.
  - simpl. repeat split; try discriminate; right; tauto.
Defined.

End CliFacts.
